(** * The in-memory tag index of logrange (pkg/tindex/inmem.go)

    A shallow embedding of [inmemService]: the map from tag lines to
    journal sources, its persistence to [tindex.dat] / [tindex.bak], the
    start-up consistency check and the init / shutdown flag.

    The service is modelled sequentially: a state is what one observes
    between two calls.  The mutex is a boolean of the state, so that a
    return path that forgets to unlock is visible, and a call that finds
    the mutex held never returns ([Blocks]). *)

From Stdlib Require Import ZArith Ascii String.
From stdpp Require Import base option list gmap strings fin_maps.

Open Scope string_scope.
Open Scope Z_scope.

(** ** Packages the file imports but which are not part of it *)

(** [tag.Line] is a Go string type. *)
Abbreviation Line := string (only parsing).

(** pkg/model/tag: [tag.Set], [tag.Parse], [Set.Line], [Set.IsEmpty].
    A Go function returning [(Set, error)] is a pair here, because
    [loadState] stores the returned set even when the error is not nil.
    [tag_zero] is the zero value of [tag.Set], which [json.Unmarshal]
    leaves in the unexported field [tags]. *)
Class TagPkg := {
  tag_Set : Type;
  tag_zero : tag_Set;
  tag_Parse : string -> tag_Set * option string;
  Set_Line : tag_Set -> Line;
  Set_IsEmpty : tag_Set -> bool
}.

(** encoding/json, as used on [map[tag.Line]*tagsDesc]: only the exported
    field [Src] is visible to it, so a document is a map from line to
    source.  [json_Unmarshal] gives the entries it decoded and the error,
    if any.  A [null] entry (a nil [*tagsDesc]) is outside this model;
    [json.Marshal] of this map never writes one. *)
Class JsonPkg := {
  json_Marshal : gmap Line string -> option string;
  json_Unmarshal : string -> gmap Line string * option string
}.

(** pkg/lql: [lql.Source] and [lql.BuildTagsExpFuncBySource]. *)
Class LqlPkg `{TagPkg} := {
  lql_Source : Type;
  BuildTagsExpFuncBySource : lql_Source -> (tag_Set -> bool) * option string
}.

(** ** Errors and log records *)

Inductive error :=
| ErrShutDown
    (* "already shut-down." *)
| ErrTagLine (tagStr cause : string)
    (* "the line %s doesn't seem like properly formatted tag line: %s" *)
| ErrEmptyTags
    (* "at least one tag value is expected to define the source" *)
| ErrRename (fn bFn : string)
    (* "could not rename file %s to %s" *)
| ErrMarshal
    (* "could not marshal tmap " *)
| ErrWrite (fn : string)
    (* "could not write file %s " *)
| ErrRead (fn : string)
    (* "cound not load index file %s. Wrong permissions?" *)
| ErrInconsistent (journals records : nat)
    (* "data is inconsistent. %d journals and %d tindex records found. ..." *)
| ErrLib (msg : string).
    (* an error of tag.Parse, json.Unmarshal or lql, returned as it is *)

#[global] Instance error_eq_dec : EqDecision error.
Proof. solve_decision. Defined.

Inductive level := Debug | Info | Warn | Error.

(** The files of the working directory: path to content. *)
Abbreviation disk := (gmap string string) (only parsing).

(** ** The service *)

Section Service.
Context `{TP : TagPkg} `{JP : JsonPkg} `{LP : !LqlPkg}.

Record tagsDesc := { tags : tag_Set; Src : string }.

Record InMemConfig := { DoNotSave : bool; WorkingDir : string }.

Record inmemService := {
  Config : InMemConfig;
  logger : list (level * string);
  lock : bool;                      (* sync.Mutex: true while held *)
  tmap : gmap Line tagsDesc;
  done : bool
}.

Definition cIdxFileName := "tindex.dat".
Definition cIdxBackupFileName := "tindex.bak".

Definition set_lock (b : bool) (ims : inmemService) : inmemService :=
  {| Config := Config ims; logger := logger ims; lock := b;
     tmap := tmap ims; done := done ims |}.

Definition set_tmap (m : gmap Line tagsDesc) (ims : inmemService) : inmemService :=
  {| Config := Config ims; logger := logger ims; lock := lock ims;
     tmap := m; done := done ims |}.

Definition set_done (b : bool) (ims : inmemService) : inmemService :=
  {| Config := Config ims; logger := logger ims; lock := lock ims;
     tmap := tmap ims; done := b |}.

Definition log (l : level) (msg : string) (ims : inmemService) : inmemService :=
  {| Config := Config ims; logger := logger ims ++ [(l, msg)]; lock := lock ims;
     tmap := tmap ims; done := done ims |}.

(** [NewInmemServiceWithConfig]: an empty map, not done, mutex free. *)
Definition NewInmemServiceWithConfig (cfg : InMemConfig) : inmemService :=
  {| Config := cfg; logger := []; lock := false; tmap := ∅; done := false |}.

(** ** Files *)

(** What the operating system may do to one call: [os.Stat] failing for
    another reason than a missing file, [os.Rename] failing,
    [ioutil.WriteFile] failing and leaving [Some rest] (or no file) at
    the path, [ioutil.ReadFile] failing. *)
Record faults := {
  statErr : bool;
  renameErr : bool;
  writeErr : option (option string);
  readErr : bool
}.

Definition no_faults : faults :=
  {| statErr := false; renameErr := false; writeErr := None; readErr := false |}.

(** [path.Join] of a directory and a file name (no cleaning of the
    directory is modelled). *)
Definition path_Join (dir name : string) : string :=
  if decide (dir = "") then name else dir +:+ "/" +:+ name.

(** [os.IsNotExist(err)] for the [err] of [os.Stat(fn)]. *)
Definition stat_IsNotExist (io : faults) (fn : string) (fs : disk) : bool :=
  negb (statErr io) && bool_decide (fs !! fn = None).

(** [os.Rename]: true is an error. *)
Definition os_Rename (io : faults) (old new : string) (fs : disk) : bool * disk :=
  match fs !! old with
  | Some data => if renameErr io then (true, fs)
                 else (false, <[new := data]> (delete old fs))
  | None => (true, fs)
  end.

(** [ioutil.WriteFile]: true is an error. *)
Definition ioutil_WriteFile (io : faults) (fn data : string) (fs : disk) : bool * disk :=
  match writeErr io with
  | None => (false, <[fn := data]> fs)
  | Some (Some rest) => (true, <[fn := rest]> fs)
  | Some None => (true, fs)
  end.

(** [ioutil.ReadFile] *)
Definition ioutil_ReadFile (io : faults) (fn : string) (fs : disk) : option string :=
  if readErr io then None else fs !! fn.

(** What [json.Marshal] sees of the map. *)
Definition document (m : gmap Line tagsDesc) : gmap Line string := Src <$> m.

Definition saveStateUnsafe (io : faults) (ims : inmemService) (fs : disk)
  : option error * inmemService * disk :=
  let ims := log Debug "saveStateUnsafe()" ims in
  if DoNotSave (Config ims) then
    (None, log Warn "will not save config, cause DoNotSave flag is set." ims, fs)
  else
    let fn := path_Join (WorkingDir (Config ims)) cIdxFileName in
    let exists_ := negb (stat_IsNotExist io fn fs) in
    let bFn := if exists_
               then path_Join (WorkingDir (Config ims)) cIdxBackupFileName else "" in
    let '(err, fs) := if exists_ then os_Rename io fn bFn fs else (false, fs) in
    if err then (Some (ErrRename fn bFn), ims, fs)
    else
      match json_Marshal (document (tmap ims)) with
      | None => (Some ErrMarshal, ims, fs)
      | Some data =>
          let '(err, fs) := ioutil_WriteFile io fn data fs in
          if err then (Some (ErrWrite fn), ims, fs) else (None, ims, fs)
      end.

(** ** Calls *)

Inductive outcome (A : Type) :=
| Returns (a : A) (ims : inmemService) (fs : disk)
| Blocks.
Arguments Returns {A} a ims fs.
Arguments Blocks {A}.

Definition Shutdown (ims : inmemService) (fs : disk) : outcome unit :=
  let ims := log Info "Shutting down" ims in
  if lock ims then Blocks
  else
    let ims := set_lock true ims in
    let ims := set_done true ims in
    Returns tt (set_lock false ims) fs.

(** [newSrc] is the identifier [newSrc()] gives when it is called. *)
Definition GetOrCreateJournal (tagStr : string) (newSrc : string) (io : faults)
    (ims : inmemService) (fs : disk) : outcome (string * option error) :=
  if lock ims then Blocks
  else
    let ims := set_lock true ims in
    if done ims then Returns ("", Some ErrShutDown) (set_lock false ims) fs
    else
      match tmap ims !! tagStr with
      | Some td => Returns (Src td, None) (set_lock false ims) fs
      | None =>
          let '(tgs, err) := tag_Parse tagStr in
          match err with
          | Some e => Returns ("", Some (ErrTagLine tagStr e)) (set_lock false ims) fs
          | None =>
              if Set_IsEmpty tgs then
                (* returns with the mutex held *)
                Returns ("", Some ErrEmptyTags) ims fs
              else
                match tmap ims !! Set_Line tgs with
                | Some td2 => Returns (Src td2, None) (set_lock false ims) fs
                | None =>
                    let td := {| tags := tgs; Src := newSrc |} in
                    let ims := set_tmap (<[Set_Line tgs := td]> (tmap ims)) ims in
                    let '(err, ims, fs) := saveStateUnsafe io ims fs in
                    match err with
                    | Some e =>
                        let ims := set_tmap (delete (Set_Line tgs) (tmap ims)) ims in
                        let ims := log Error "could not save state for the new source " ims in
                        Returns ("", Some e) (set_lock false ims) fs
                    | None => Returns (Src td, None) (set_lock false ims) fs
                    end
                end
          end
      end.

(** A Go [range] over a map visits every key once, in an order the
    language does not fix: [order] is the order of one such loop, and
    [range_of order m] the entries it meets. *)
Definition range_of (order : list Line) (m : gmap Line tagsDesc)
  : list (Line * tagsDesc) :=
  omap (λ k, (λ td, (k, td)) <$> m !! k) order.

Definition iteration_of (order : list Line) (m : gmap Line tagsDesc) : Prop :=
  order ≡ₚ (map_to_list m).*1.

(** The loop of [GetJournals]; [maxSize] and [count] are Go [int]s, and
    [count] is at most the number of entries, far from overflow. *)
Fixpoint scan (tef : tag_Set -> bool) (maxSize : Z) (checkAll : bool)
    (l : list (Line * tagsDesc)) (res : gmap Line string) (count : Z)
  : gmap Line string * Z :=
  match l with
  | [] => (res, count)
  | (_, td) :: rest =>
      if tef (tags td) then
        let count := count + 1 in
        if Z.of_nat (size res) <? maxSize then
          scan tef maxSize checkAll rest (<[Set_Line (tags td) := Src td]> res) count
        else if negb checkAll then (res, count)          (* break *)
        else scan tef maxSize checkAll rest res count
      else scan tef maxSize checkAll rest res count
  end.

Definition GetJournals (srcCond : lql_Source) (maxSize : Z) (checkAll : bool)
    (order : list Line) (ims : inmemService) (fs : disk)
  : outcome (gmap Line string * Z * option error) :=
  let '(tef, err) := BuildTagsExpFuncBySource srcCond in
  match err with
  | Some e => Returns (∅, 0, Some (ErrLib e)) ims fs
  | None =>
      if lock ims then Blocks
      else
        let ims := set_lock true ims in
        if done ims then Returns (∅, 0, Some ErrShutDown) (set_lock false ims) fs
        else
          let '(res, count) :=
            scan tef maxSize checkAll (range_of order (tmap ims)) ∅ 0 in
          Returns (res, count, None) (set_lock false ims) fs
  end.

(** ** Loading and the consistency check *)

(** [json.Unmarshal(data, &ims.tmap)] keeps the entries of the map it is
    given and sets every decoded key to a fresh [tagsDesc]. *)
Definition unmarshal_into (doc : gmap Line string) (m : gmap Line tagsDesc)
  : gmap Line tagsDesc :=
  ((λ src, {| tags := tag_zero; Src := src |}) <$> doc) ∪ m.

(** The loop of [loadState]: every entry gets the tags its key parses
    to, and the first key that does not parse ends the loop. *)
Fixpoint reparse (order : list Line) (ims : inmemService)
  : option string * inmemService :=
  match order with
  | [] => (None, ims)
  | tln :: rest =>
      match tmap ims !! tln with
      | None => reparse rest ims
      | Some td =>
          let '(tgs, err) := tag_Parse tln in
          let ims := set_tmap (<[tln := {| tags := tgs; Src := Src td |}]> (tmap ims)) ims in
          match err with
          | Some e =>
              (Some e, log Error "Could not parse tags " ims)   (* break *)
          | None => reparse rest ims
          end
      end
  end.

Definition loadState (io : faults) (order : list Line) (ims : inmemService)
    (fs : disk) : option error * inmemService :=
  let fn := path_Join (WorkingDir (Config ims)) cIdxFileName in
  if stat_IsNotExist io fn fs then
    (None, log Warn "loadState() file not found " ims)
  else
    let ims := log Debug "loadState() from " ims in
    match ioutil_ReadFile io fn fs with
    | None => (Some (ErrRead fn), ims)
    | Some data =>
        let '(doc, err) := json_Unmarshal data in
        let ims := set_tmap (unmarshal_into doc (tmap ims)) ims in
        match err with
        | Some e => (Some (ErrLib e), ims)
        | None =>
            let '(err, ims) := reparse order ims in
            (ErrLib <$> err, ims)
        end
    end.

(** [km] of [checkConsistency]: the sources the index refers to. *)
Definition indexed (m : gmap Line tagsDesc) : gset string :=
  list_to_set (Src <$> (map_to_list m).*2).

(** The loop of [checkConsistency] over the journals of the controller. *)
Fixpoint reconcile (knwnJrnls : list string) (km : gset string)
    (fail : bool) (ims : inmemService) : gset string * bool * inmemService :=
  match knwnJrnls with
  | [] => (km, fail, ims)
  | src :: rest =>
      if decide (src ∈ km) then reconcile rest (km ∖ {[src]}) fail ims
      else reconcile rest km true (log Error "found journal " ims)
  end.

(** [knwnJrnls] is what [ims.Journals.GetJournals(ctx)] returns; [ioL]
    are the faults of the load and [ioS] those of the final save. *)
Definition checkConsistency (ioL ioS : faults) (order : list Line)
    (knwnJrnls : list string) (ims : inmemService) (fs : disk)
  : option error * inmemService * disk :=
  let '(err, ims) := loadState ioL order ims fs in
  match err with
  | Some e => (Some e, ims, fs)
  | None =>
      let ims := log Info "Checking the index and data consistency" ims in
      let '(km, fail, ims) := reconcile knwnJrnls (indexed (tmap ims)) false ims in
      let ims :=
        if (0 <? size (km : gset string))%nat then
          log Warn "tindex contains %d records, which don't have corresponding journals" ims
        else ims in
      if fail then
        let ims := log Error "Consistency check failed. " ims in
        (Some (ErrInconsistent (length knwnJrnls) (size (tmap ims))), ims, fs)
      else
        let ims := log Info "Consistency check passed. " ims in
        saveStateUnsafe ioS ims fs
  end.

Definition Init (ioL ioS : faults) (order : list Line) (knwnJrnls : list string)
    (ims : inmemService) (fs : disk) : option error * inmemService * disk :=
  let ims := log Info "Initializing..." ims in
  let ims := set_done false ims in
  checkConsistency ioL ioS order knwnJrnls ims fs.

(** ** The index as the data model describes it *)

(** An entry under key [k] is sound when [k] parses to its tag set, [k]
    is the line of that tag set, and the tag set is not empty.
    [loadState] gives every entry the first property, and
    [GetOrCreateJournal] creates entries with the other two. *)
Definition entry_ok (k : Line) (td : tagsDesc) : Prop :=
  tag_Parse k = (tags td, None) ∧ Set_Line (tags td) = k ∧ Set_IsEmpty (tags td) = false.

Definition index_wf (m : gmap Line tagsDesc) : Prop := map_Forall entry_ok m.

(** The entries of the index whose tag set satisfies [tef]. *)
Definition matching (tef : tag_Set -> bool) (m : gmap Line tagsDesc)
  : gmap Line tagsDesc :=
  filter (λ e : Line * tagsDesc, tef (tags e.2) = true) m.

(** ** Sequences of calls *)

Inductive call :=
| CallInit (ioL ioS : faults) (order : list Line) (knwnJrnls : list string)
| CallShutdown
| CallGetOrCreateJournal (tagStr newSrc : string) (io : faults)
| CallGetJournals (srcCond : lql_Source) (maxSize : Z) (checkAll : bool)
    (order : list Line).

(** One call, keeping of its result only the error. *)
Definition perform (c : call) (ims : inmemService) (fs : disk)
  : outcome (option error) :=
  match c with
  | CallInit ioL ioS order knwnJrnls =>
      let '(err, ims, fs) := Init ioL ioS order knwnJrnls ims fs in
      Returns err ims fs
  | CallShutdown =>
      match Shutdown ims fs with
      | Returns _ ims fs => Returns None ims fs
      | Blocks => Blocks
      end
  | CallGetOrCreateJournal tagStr newSrc io =>
      match GetOrCreateJournal tagStr newSrc io ims fs with
      | Returns (_, err) ims fs => Returns err ims fs
      | Blocks => Blocks
      end
  | CallGetJournals srcCond maxSize checkAll order =>
      match GetJournals srcCond maxSize checkAll order ims fs with
      | Returns (_, _, err) ims fs => Returns err ims fs
      | Blocks => Blocks
      end
  end.

(** The calls of [cs] one after the other; the errors are listed in the
    order of the calls. *)
Fixpoint run (cs : list call) (ims : inmemService) (fs : disk)
  : outcome (list (option error)) :=
  match cs with
  | [] => Returns [] ims fs
  | c :: rest =>
      match perform c ims fs with
      | Returns err ims fs =>
          match run rest ims fs with
          | Returns errs ims fs => Returns (err :: errs) ims fs
          | Blocks => Blocks
          end
      | Blocks => Blocks
      end
  end.

Definition is_Init (c : call) : bool :=
  match c with CallInit _ _ _ _ => true | _ => false end.

Definition is_Shutdown (c : call) : bool :=
  match c with CallShutdown => true | _ => false end.

(** ** Further notions used by the properties *)

(** The two paths the service works with. *)
Definition idx_file (ims : inmemService) : string :=
  path_Join (WorkingDir (Config ims)) cIdxFileName.

Definition bak_file (ims : inmemService) : string :=
  path_Join (WorkingDir (Config ims)) cIdxBackupFileName.

(** No two entries of the index have the same source. *)
Definition sources_unique (m : gmap Line tagsDesc) : Prop :=
  ∀ k1 k2 td1 td2, m !! k1 = Some td1 -> m !! k2 = Some td2 ->
                   Src td1 = Src td2 -> k1 = k2.

(** The tag string of a [GetOrCreateJournal] call is well behaved when
    the line of the tag set it parses to parses to that tag set again. *)
Definition call_canonical (c : call) : Prop :=
  match c with
  | CallGetOrCreateJournal tagStr _ _ =>
      ∀ tgs, tag_Parse tagStr = (tgs, None) -> tag_Parse (Set_Line tgs) = (tgs, None)
  | _ => True
  end.

(** The files mirror the index: [tindex.dat] has the encoding of the
    document of the index. *)
Definition mirrored (ims : inmemService) (fs : disk) : Prop :=
  ∃ data, json_Marshal (document (tmap ims)) = Some data
          ∧ fs !! idx_file ims = Some data.

End Service.

Arguments Returns {TP A} a ims fs.
Arguments Blocks {TP A}.

(** ** A small instance of the imported packages

    Concrete runs of the service need a canonicalizer, a codec and a
    predicate compiler.  The ones below are used for such runs only:
    every theorem of this file is stated for any [TagPkg], [JsonPkg]
    and [LqlPkg]. *)

Module Sample.

Fixpoint split_on (c : ascii) (s : string) : list string :=
  match s with
  | EmptyString => [""]
  | String a rest =>
      if Ascii.eqb a c then "" :: split_on c rest
      else match split_on c rest with
           | [] => [String a ""]
           | p :: ps => String a p :: ps
           end
  end.

Fixpoint join (sep : string) (l : list string) : string :=
  match l with
  | [] => ""
  | [x] => x
  | x :: rest => x +:+ sep +:+ join sep rest
  end.

(** Insertion of a tag into a list kept sorted by key; a key given twice
    keeps its last value. *)
Fixpoint put (k v : string) (s : list (string * string)) : list (string * string) :=
  match s with
  | [] => [(k, v)]
  | (k', v') :: rest =>
      if String.eqb k k' then (k, v) :: rest
      else if String.ltb k k' then (k, v) :: (k', v') :: rest
      else (k', v') :: put k v rest
  end.

Fixpoint parse_items (items : list string) : list (string * string) * option string :=
  match items with
  | [] => ([], None)
  | item :: rest =>
      match split_on "=" item with
      | [k; v] =>
          let '(s, e) := parse_items rest in
          match e with
          | None => (put k v s, None)
          | Some _ => ([], e)
          end
      | _ => ([], Some "tag without value")
      end
  end.

(** Modelled from the spec: pkg/model/tag, which is not among the
    sources.  A tag set is a list of key/value pairs sorted by key, its
    line is [k1=v1,k2=v2,...], and the empty string parses to the empty
    set. *)
Definition tags_of (tagStr : string) : list (string * string) * option string :=
  if String.eqb tagStr "" then ([], None) else parse_items (split_on "," tagStr).

Definition line_of (s : list (string * string)) : string :=
  join "," ((λ kv, kv.1 +:+ "=" +:+ kv.2) <$> s).

Definition SampleTags : TagPkg :=
  {| tag_Set := list (string * string);
     tag_zero := [];
     tag_Parse := tags_of;
     Set_Line := line_of;
     Set_IsEmpty := λ s, match s with [] => true | _ => false end |}.

Definition dquote : string := String "034" "".

(** Modelled from the spec: the persisted document, a JSON object from
    line to an object with the one member [Src] (no escaping). *)
Definition encode (doc : gmap string string) : option string :=
  Some ("{" +:+ join ","
          ((λ kv, dquote +:+ kv.1 +:+ dquote +:+ ":{" +:+ dquote +:+ "Src" +:+ dquote
                  +:+ ":" +:+ dquote +:+ kv.2 +:+ dquote +:+ "}") <$> map_to_list doc)
        +:+ "}").

Fixpoint members (first : bool) (ps : list string) : gmap string string * option string :=
  match ps with
  | [p] =>
      if String.eqb p (if first then "{}" else "}}") then (∅, None)
      else (∅, Some "unexpected end of JSON input")
  | p1 :: k :: p2 :: s :: p3 :: v :: rest =>
      if String.eqb p1 (if first then "{" else "},")
         && String.eqb p2 ":{" && String.eqb s "Src" && String.eqb p3 ":"
      then let '(m, e) := members false rest in (<[k := v]> m, e)
      else (∅, Some "invalid character")
  | _ => (∅, Some "unexpected end of JSON input")
  end.

Definition decode (data : string) : gmap string string * option string :=
  members true (split_on "034" data).

Definition SampleJson : JsonPkg :=
  {| json_Marshal := encode; json_Unmarshal := decode |}.

(** Modelled from the spec: the predicate compiler of pkg/lql.  The
    empty selector accepts every tag set, [k=v] accepts the sets that
    have this tag, anything else does not compile. *)
Definition compile (src : string) : (list (string * string) -> bool) * option string :=
  if String.eqb src "" then (λ _, true, None)
  else match split_on "=" src with
       | [k; v] => (λ s, bool_decide ((k, v) ∈ s), None)
       | _ => (λ _, false, Some "unexpected expression")
       end.

Definition SampleLql : @LqlPkg SampleTags :=
  @Build_LqlPkg SampleTags string compile.

(** A working directory, a new service, and services with a given
    index, for concrete runs. *)
Definition cfg : InMemConfig := {| DoNotSave := false; WorkingDir := "/var/lr" |}.

Definition fresh : @inmemService SampleTags := NewInmemServiceWithConfig cfg.

Definition desc (line src : string) : @tagsDesc SampleTags :=
  @Build_tagsDesc SampleTags (tags_of line).1 src.

Definition with_index (l : list (string * string)) : @inmemService SampleTags :=
  set_tmap (list_to_map ((λ p, (p.1, desc p.1 p.2)) <$> l)) fresh.

Definition keys (ims : @inmemService SampleTags) : list string :=
  (map_to_list (tmap ims)).*1.

(** Five entries with the tag [a=1] and one without. *)
Definition six : @inmemService SampleTags :=
  with_index [("a=1", "j1"); ("a=1,b=1", "j2"); ("a=1,b=2", "j3");
              ("a=1,c=1", "j4"); ("a=1,d=1", "j5"); ("z=9", "j6")].

Definition two : @inmemService SampleTags :=
  with_index [("a=1", "jA"); ("b=1", "jB")].

Definition write_fails : faults :=
  {| statErr := false; renameErr := false; writeErr := Some None; readErr := false |}.

(** The file a save of [two] leaves, and a file with a key that is not
    a tag line. *)
Definition two_dat : gmap string string :=
  {[ "/var/lr/tindex.dat" := from_option id "" (encode (document (tmap two))) ]}.

Definition bad_dat : gmap string string :=
  {[ "/var/lr/tindex.dat" :=
       "{" +:+ dquote +:+ "abc" +:+ dquote +:+ ":{" +:+ dquote +:+ "Src" +:+ dquote
       +:+ ":" +:+ dquote +:+ "j1" +:+ dquote +:+ "}}" ]}.

End Sample.

(** * The configuration of the forwarder (package forwarder)

    [Config], [WorkerConfig] and [StreamConfig] with their [Check],
    [Apply], [Equals] and [Reload].  A pointer that may be nil is an
    [option]; a nil slice is [None] and an empty one [Some []], which
    [reflect.DeepEqual] tells apart.  A nil pointer that is dereferenced
    gives [Panic]. *)

Module Forwarder.

(** pkg/forwarder/sink: [sink.Config] with its [Check], and what
    [deepcopy.Copy] and [reflect.DeepEqual] do on a [sink.Config], whose
    fields are not in this file. *)
Class SinkPkg := {
  sink_Config : Type;
  sink_Check : sink_Config -> option string;
  sink_Copy : sink_Config -> sink_Config;
  sink_DeepEqual : sink_Config -> sink_Config -> bool
}.

(** [lql.ParseSource], [lql.ParseExpr] and [syntax.Parse(_, syntax.Perl)],
    of which only the error is used, [strings.TrimSpace], and the type
    of the function values that [ReloadFn] holds. *)
Class CheckPkg := {
  lql_ParseSource : string -> option string;
  lql_ParseExpr : string -> option string;
  syntax_Parse : string -> option string;
  strings_TrimSpace : string -> string;
  reloadFn : Type
}.

Inductive result (A : Type) :=
| Ok (a : A)
| Panic.
Arguments Ok {A} a.
Arguments Panic {A}.

Section Model.
Context `{SP : SinkPkg} `{CP : CheckPkg}.

Record StreamConfig := { Source : string; Filter : string }.

Record WorkerConfig := {
  Name : string;
  Stream : option StreamConfig;
  Sink : option sink_Config
}.

Record Config := {
  Workers : option (list (option WorkerConfig));
  StateStoreIntervalSec : Z;
  ConfigReloadIntervalSec : Z;
  ReloadFn : option reloadFn
}.

Inductive streamError :=
| ErrSource (src cause : string)       (* "invalid Source=%s: %v" *)
| ErrFilter (filter cause : string).   (* "invalid Filter=%s: %v" *)

Inductive workerError :=
| ErrName (name : string)              (* "invalid Name=%v, must be non-empty" *)
| ErrStreamNil                         (* "invalid Stream=%v, must be non-nil" *)
| ErrSinkNil                           (* "invalid Sink=%v, must be non-nil" *)
| ErrStream (e : streamError)          (* "invalid Stream=%v: %v" *)
| ErrSink (cause : string).            (* "invalid Sink=%v: %v" *)

Inductive configError :=
| ErrStateStoreInterval (v : Z)
    (* "invalid StateStoreIntervalSec=%v, must be > 0sec" *)
| ErrConfigReloadInterval (v : Z)
    (* "invalid ConfigReloadIntervalSec=%v, must be > 0sec" *)
| ErrDuplicateName (w : WorkerConfig)
    (* "invalid Worker=%v: duplicate Name, must be unique" *)
| ErrWorker (w : WorkerConfig) (e : workerError)
    (* "invalid Worker=%v: %v" *)
| ErrReloadFn (cause : string).
    (* the error [ReloadFn] returned, passed on as it is *)

Definition NewDefaultConfig : Config :=
  {| Workers := Some []; StateStoreIntervalSec := 10;
     ConfigReloadIntervalSec := 20; ReloadFn := None |}.

(** [len] of a slice. *)
Definition len (ws : option (list (option WorkerConfig))) : nat :=
  match ws with None => 0%nat | Some l => length l end.

(** [deepcopy.Copy] on [[]*WorkerConfig]: new slice, new pointers, nil
    stays nil; the fields of [WorkerConfig] and [StreamConfig] are all
    exported and are copied. *)
Definition copy_worker (w : WorkerConfig) : WorkerConfig :=
  {| Name := Name w; Stream := Stream w; Sink := sink_Copy <$> Sink w |}.

Definition deepcopy_Copy (ws : option (list (option WorkerConfig)))
  : option (list (option WorkerConfig)) :=
  match ws with
  | None => None
  | Some l => Some (fmap (M := list) (fmap (M := option) copy_worker) l)
  end.

Definition set_Workers ws (c : Config) : Config :=
  {| Workers := ws; StateStoreIntervalSec := StateStoreIntervalSec c;
     ConfigReloadIntervalSec := ConfigReloadIntervalSec c; ReloadFn := ReloadFn c |}.

Definition set_StateStoreIntervalSec v (c : Config) : Config :=
  {| Workers := Workers c; StateStoreIntervalSec := v;
     ConfigReloadIntervalSec := ConfigReloadIntervalSec c; ReloadFn := ReloadFn c |}.

Definition set_ConfigReloadIntervalSec v (c : Config) : Config :=
  {| Workers := Workers c; StateStoreIntervalSec := StateStoreIntervalSec c;
     ConfigReloadIntervalSec := v; ReloadFn := ReloadFn c |}.

Definition set_ReloadFn f (c : Config) : Config :=
  {| Workers := Workers c; StateStoreIntervalSec := StateStoreIntervalSec c;
     ConfigReloadIntervalSec := ConfigReloadIntervalSec c; ReloadFn := f |}.

(** [c.Apply(other)]: the receiver after the call. *)
Definition Apply (c : Config) (other : option Config) : Config :=
  match other with
  | None => c
  | Some other =>
      let c := if decide (StateStoreIntervalSec other ≠ 0)
               then set_StateStoreIntervalSec (StateStoreIntervalSec other) c else c in
      let c := if decide (ConfigReloadIntervalSec other ≠ 0)
               then set_ConfigReloadIntervalSec (ConfigReloadIntervalSec other) c else c in
      let c := if decide (len (Workers other) ≠ 0%nat)
               then set_Workers (deepcopy_Copy (Workers other)) c else c in
      match ReloadFn other with
      | Some f => set_ReloadFn (Some f) c
      | None => c
      end
  end.

Definition StreamConfig_Check (sc : StreamConfig) : option streamError :=
  match lql_ParseSource (Source sc) with
  | Some err => Some (ErrSource (Source sc) err)
  | None =>
      match lql_ParseExpr (Filter sc) with
      | Some err => Some (ErrFilter (Filter sc) err)
      | None =>
          if decide (Filter sc ≠ "") then
            match syntax_Parse (Filter sc) with
            | Some err => Some (ErrFilter (Filter sc) err)
            | None => None
            end
          else None
      end
  end.

Definition WorkerConfig_Check (wc : WorkerConfig) : option workerError :=
  if decide (strings_TrimSpace (Name wc) = "") then Some (ErrName (Name wc))
  else
    match Stream wc with
    | None => Some ErrStreamNil
    | Some st =>
        match Sink wc with
        | None => Some ErrSinkNil
        | Some sk =>
            match StreamConfig_Check st with
            | Some err => Some (ErrStream err)
            | None =>
                match sink_Check sk with
                | Some err => Some (ErrSink err)
                | None => None
                end
            end
        end
    end.

(** The loop of [Config.Check]; [wNames] is the set of the names seen.
    A nil worker is dereferenced by [w.Name]. *)
Fixpoint check_workers (ws : list (option WorkerConfig)) (wNames : gset string)
  : result (option configError) :=
  match ws with
  | [] => Ok None
  | None :: _ => Panic
  | Some w :: rest =>
      if decide (Name w ∈ wNames) then Ok (Some (ErrDuplicateName w))
      else
        match WorkerConfig_Check w with
        | Some err => Ok (Some (ErrWorker w err))
        | None => check_workers rest ({[Name w]} ∪ wNames)
        end
  end.

Definition Check (c : Config) : result (option configError) :=
  if decide (StateStoreIntervalSec c ≤ 0)
  then Ok (Some (ErrStateStoreInterval (StateStoreIntervalSec c)))
  else if decide (ConfigReloadIntervalSec c ≤ 0)
  then Ok (Some (ErrConfigReloadInterval (ConfigReloadIntervalSec c)))
  else check_workers (from_option id [] (Workers c)) ∅.

(** [reflect.DeepEqual] on [[]*WorkerConfig], between two slices that
    share no pointer (such as a configuration and one that was just
    built by [ReloadFn], or a deep copy). *)
Definition DeepEqual_stream (a b : option StreamConfig) : bool :=
  match a, b with
  | None, None => true
  | Some x, Some y => String.eqb (Source x) (Source y) && String.eqb (Filter x) (Filter y)
  | _, _ => false
  end.

Definition DeepEqual_sink (a b : option sink_Config) : bool :=
  match a, b with
  | None, None => true
  | Some x, Some y => sink_DeepEqual x y
  | _, _ => false
  end.

Definition DeepEqual_worker (a b : option WorkerConfig) : bool :=
  match a, b with
  | None, None => true
  | Some x, Some y =>
      String.eqb (Name x) (Name y) && DeepEqual_stream (Stream x) (Stream y)
      && DeepEqual_sink (Sink x) (Sink y)
  | _, _ => false
  end.

Fixpoint DeepEqual_list (l1 l2 : list (option WorkerConfig)) : bool :=
  match l1, l2 with
  | [], [] => true
  | x :: r1, y :: r2 => DeepEqual_worker x y && DeepEqual_list r1 r2
  | _, _ => false
  end.

Definition reflect_DeepEqual (a b : option (list (option WorkerConfig))) : bool :=
  match a, b with
  | None, None => true
  | Some l1, Some l2 => DeepEqual_list l1 l2
  | _, _ => false
  end.

Definition Equals (c : Config) (other : option Config) : bool :=
  match other with
  | None => false
  | Some other =>
      (StateStoreIntervalSec c =? StateStoreIntervalSec other)
      && (ConfigReloadIntervalSec c =? ConfigReloadIntervalSec other)
      && reflect_DeepEqual (Workers c) (Workers other)
  end.

(** [c.Reload()]: [answer] is what [c.ReloadFn()] returns when it is
    called; the result is the receiver after the call and the two
    values returned. *)
Definition Reload (c : Config) (answer : option Config * option string)
  : result (Config * bool * option configError) :=
  match ReloadFn c with
  | None => Ok (c, false, None)
  | Some _ =>
      let '(nc, err) := answer in
      if negb (Equals c nc) then
        match err with
        | Some e => Ok (c, false, Some (ErrReloadFn e))
        | None =>
            match nc with
            | None => Panic                  (* nc.Check() on a nil *Config *)
            | Some n =>
                match Check n with
                | Panic => Panic
                | Ok (Some e) => Ok (c, false, Some e)
                | Ok None => Ok (Apply c (Some n), true, None)
                end
            end
        end
      else Ok (c, false, ErrReloadFn <$> err)
  end.

(** What [Check] accepts. *)
Definition valid_worker (w : WorkerConfig) : Prop :=
  strings_TrimSpace (Name w) ≠ ""
  ∧ ∃ st sk, Stream w = Some st ∧ Sink w = Some sk
             ∧ lql_ParseSource (Source st) = None
             ∧ lql_ParseExpr (Filter st) = None
             ∧ (Filter st ≠ "" -> syntax_Parse (Filter st) = None)
             ∧ sink_Check sk = None.

Definition valid (c : Config) : Prop :=
  0 < StateStoreIntervalSec c ∧ 0 < ConfigReloadIntervalSec c
  ∧ ∃ ws, from_option id [] (Workers c) = Some <$> ws
          ∧ NoDup (Name <$> ws) ∧ Forall valid_worker ws.

End Model.

Arguments Ok {A} a.
Arguments Panic {A}.

End Forwarder.

(** * Properties *)

Section Properties.
Context `{TP : TagPkg} `{JP : JsonPkg} `{LP : !LqlPkg}.

Local Open Scope list_scope.

Implicit Types (ims : inmemService) (fs : gmap string string) (io : faults).
Implicit Types (m : gmap string tagsDesc) (td : tagsDesc).

(** ** The mutex and the setters *)

Lemma unlock_lock ims : lock ims = false -> set_lock false (set_lock true ims) = ims.
Proof. destruct ims; simpl; intros ->; reflexivity. Qed.

Lemma saveStateUnsafe_fields io ims fs e ims' fs' :
  saveStateUnsafe io ims fs = (e, ims', fs') ->
  tmap ims' = tmap ims ∧ lock ims' = lock ims ∧ done ims' = done ims
  ∧ Config ims' = Config ims.
Proof.
  unfold saveStateUnsafe; intros H.
  repeat case_match; simplify_eq; done.
Qed.

(** With [DoNotSave] the files are not touched. *)
Lemma saveStateUnsafe_DoNotSave io ims fs :
  DoNotSave (Config ims) = true ->
  ∃ ims', saveStateUnsafe io ims fs = (None, ims', fs).
Proof. unfold saveStateUnsafe; simpl; intros ->; eauto. Qed.

(** Without faults, and when the codec accepts the document, the save
    succeeds. *)
Lemma saveStateUnsafe_no_faults ims fs data :
  json_Marshal (document (tmap ims)) = Some data ->
  ∃ ims' fs', saveStateUnsafe no_faults ims fs = (None, ims', fs').
Proof.
  intros Hm. unfold saveStateUnsafe; simpl.
  destruct (DoNotSave (Config ims)); [eauto|].
  unfold stat_IsNotExist, os_Rename, ioutil_WriteFile; simpl.
  case_bool_decide as Hfn; simpl.
  - rewrite Hm. eauto.
  - destruct (fs !! _) eqn:E; [|done]. rewrite Hm. eauto.
Qed.

(** ** GetOrCreateJournal, one call *)

(** The path on which the save of the new entry fails: the entry is
    deleted, the mutex released and the error of the save returned. *)
Lemma GetOrCreateJournal_persist_failure tagStr newSrc io ims fs tgs e ims1 fs1 :
  lock ims = false -> done ims = false ->
  tmap ims !! tagStr = None ->
  tag_Parse tagStr = (tgs, None) -> Set_IsEmpty tgs = false ->
  tmap ims !! Set_Line tgs = None ->
  saveStateUnsafe io
    (set_tmap (<[Set_Line tgs := {| tags := tgs; Src := newSrc |}]> (tmap ims))
       (set_lock true ims)) fs = (Some e, ims1, fs1) ->
  ∃ ims', GetOrCreateJournal tagStr newSrc io ims fs = Returns ("", Some e) ims' fs1
          ∧ tmap ims' = tmap ims ∧ lock ims' = false.
Proof.
  intros Hl Hd Hraw Hp Hne Hline Hsave.
  unfold GetOrCreateJournal. rewrite Hl; simpl. rewrite Hd, Hraw, Hp, Hne, Hline.
  rewrite Hsave. eexists; split; [reflexivity|]. simpl.
  apply saveStateUnsafe_fields in Hsave as (-> & _); simpl.
  split; [|done]. by rewrite delete_insert_id.
Qed.

(** C2.  Whenever [GetOrCreateJournal] returns an error, the index is
    the one it found: on the path where the new entry was inserted and
    [saveStateUnsafe] failed, the entry has been deleted again before
    the return. *)
Theorem GetOrCreateJournal_error_keeps_index tagStr newSrc io ims fs res e ims' fs' :
  GetOrCreateJournal tagStr newSrc io ims fs = Returns (res, Some e) ims' fs' ->
  res = "" ∧ tmap ims' = tmap ims.
Proof.
  unfold GetOrCreateJournal; intros H.
  destruct (lock ims); [done|]; simpl in H.
  destruct (done ims); [by simplify_eq|].
  destruct (tmap ims !! tagStr) eqn:Hraw; [by simplify_eq|].
  destruct (tag_Parse tagStr) as [tgs [err|]]; [by simplify_eq|].
  destruct (Set_IsEmpty tgs); [by simplify_eq|].
  destruct (tmap ims !! Set_Line tgs) eqn:Hline; [by simplify_eq|].
  destruct (saveStateUnsafe _ _ _) as [[[e'|] ims1] fs1] eqn:Hsave; [|by simplify_eq].
  simplify_eq; simpl. split; [done|].
  apply saveStateUnsafe_fields in Hsave as (-> & _); simpl.
  by rewrite delete_insert_id.
Qed.

(** C6.  A tag string that parses to an empty tag set is refused with
    the empty-tags error; the index, the log and the files are those
    found by the call (the state differs in the mutex only). *)
Theorem GetOrCreateJournal_empty_tags tagStr tgs newSrc io ims fs :
  lock ims = false -> done ims = false -> index_wf (tmap ims) ->
  tag_Parse tagStr = (tgs, None) -> Set_IsEmpty tgs = true ->
  ∃ ims', GetOrCreateJournal tagStr newSrc io ims fs
            = Returns ("", Some ErrEmptyTags) ims' fs
          ∧ tmap ims' = tmap ims ∧ logger ims' = logger ims.
Proof.
  intros Hl Hd Hwf Hp He.
  unfold GetOrCreateJournal. rewrite Hl; simpl. rewrite Hd.
  destruct (tmap ims !! tagStr) as [td|] eqn:Hraw.
  - apply Hwf in Hraw as (Hp' & _ & Hne). rewrite Hp in Hp'. simplify_eq. congruence.
  - rewrite Hp, He. eauto.
Qed.

(** C10.  On the empty-tags path [GetOrCreateJournal] returns without
    unlocking: the mutex is held in the state it leaves, and the next
    [GetOrCreateJournal] or [Shutdown] never returns. *)
Theorem empty_tags_path_holds_mutex tagStr tgs newSrc io ims fs :
  lock ims = false -> done ims = false -> tmap ims !! tagStr = None ->
  tag_Parse tagStr = (tgs, None) -> Set_IsEmpty tgs = true ->
  ∃ ims', GetOrCreateJournal tagStr newSrc io ims fs
            = Returns ("", Some ErrEmptyTags) ims' fs
          ∧ lock ims' = true
          ∧ (∀ tagStr' newSrc' io', GetOrCreateJournal tagStr' newSrc' io' ims' fs = Blocks)
          ∧ Shutdown ims' fs = Blocks.
Proof.
  intros Hl Hd Hraw Hp He.
  unfold GetOrCreateJournal at 1. rewrite Hl; simpl. rewrite Hd, Hraw, Hp, He.
  eexists; split; [reflexivity|]. by repeat split.
Qed.

(** Every other return path releases the mutex. *)
Lemma GetOrCreateJournal_unlocks tagStr newSrc io ims fs res e ims' fs' :
  GetOrCreateJournal tagStr newSrc io ims fs = Returns (res, e) ims' fs' ->
  e ≠ Some ErrEmptyTags -> lock ims' = false.
Proof.
  unfold GetOrCreateJournal; intros H Hne.
  destruct (lock ims); [done|]; simpl in H.
  destruct (done ims); [by simplify_eq|].
  destruct (tmap ims !! tagStr) eqn:Hraw; [by simplify_eq|].
  destruct (tag_Parse tagStr) as [tgs [err|]]; [by simplify_eq|].
  destruct (Set_IsEmpty tgs); [by simplify_eq|].
  destruct (tmap ims !! Set_Line tgs) eqn:Hline; [by simplify_eq|].
  destruct (saveStateUnsafe _ _ _) as [[[e'|] ims1] fs1] eqn:Hsave; by simplify_eq.
Qed.

(** ** GetOrCreateJournal, two calls *)

(** The three ways in which [GetOrCreateJournal] returns a source: the
    string is a key, its line is a key, or a new entry was saved. *)
Lemma GetOrCreateJournal_success_inv tagStr newSrc io ims fs j ims1 fs1 :
  GetOrCreateJournal tagStr newSrc io ims fs = Returns (j, None) ims1 fs1 ->
  lock ims = false ∧ done ims = false ∧ lock ims1 = false ∧ done ims1 = false ∧
  ( (∃ td, tmap ims !! tagStr = Some td ∧ Src td = j ∧ ims1 = ims ∧ fs1 = fs)
  ∨ (∃ tgs td, tmap ims !! tagStr = None ∧ tag_Parse tagStr = (tgs, None)
       ∧ Set_IsEmpty tgs = false ∧ tmap ims !! Set_Line tgs = Some td
       ∧ Src td = j ∧ ims1 = ims ∧ fs1 = fs)
  ∨ (∃ tgs, tmap ims !! tagStr = None ∧ tag_Parse tagStr = (tgs, None)
       ∧ Set_IsEmpty tgs = false ∧ tmap ims !! Set_Line tgs = None ∧ j = newSrc
       ∧ tmap ims1 = <[Set_Line tgs := {| tags := tgs; Src := newSrc |}]> (tmap ims)) ).
Proof.
  unfold GetOrCreateJournal; intros H.
  destruct (lock ims) eqn:Hl; [done|].
  change (done (set_lock true ims)) with (done ims) in H.
  change (tmap (set_lock true ims)) with (tmap ims) in H.
  destruct (done ims) eqn:Hd; [by simplify_eq|].
  destruct (tmap ims !! tagStr) as [td|] eqn:Hraw.
  { simplify_eq. rewrite unlock_lock by done. repeat split; try done. left. eauto. }
  destruct (tag_Parse tagStr) as [tgs [err|]] eqn:Hp; [by simplify_eq|].
  destruct (Set_IsEmpty tgs) eqn:He; [by simplify_eq|].
  destruct (tmap ims !! Set_Line tgs) as [td2|] eqn:Hline.
  { simplify_eq. rewrite unlock_lock by done. repeat split; try done.
    right; left. exists tgs, td2. by repeat split. }
  destruct (saveStateUnsafe _ _ _) as [[[e'|] ims2] fs2] eqn:Hsave; [by simplify_eq|].
  simplify_eq. apply saveStateUnsafe_fields in Hsave as (Hm & _ & Hd2 & _).
  simpl in *. split; [done|]. split; [done|]. split; [done|].
  split; [congruence|].
  right; right. exists tgs. by repeat split.
Qed.

(** A call whose line is in the index returns the source of that entry
    and leaves the service and the files as they were, provided the
    string itself, if it is a key, is that line. *)
Lemma GetOrCreateJournal_present tagStr tgs td newSrc io ims fs :
  lock ims = false -> done ims = false ->
  tag_Parse tagStr = (tgs, None) -> Set_IsEmpty tgs = false ->
  tmap ims !! Set_Line tgs = Some td ->
  (is_Some (tmap ims !! tagStr) -> tagStr = Set_Line tgs) ->
  GetOrCreateJournal tagStr newSrc io ims fs = Returns (Src td, None) ims fs.
Proof.
  intros Hl Hd Hp He Hline Hraw. unfold GetOrCreateJournal. rewrite Hl.
  change (done (set_lock true ims)) with (done ims).
  change (tmap (set_lock true ims)) with (tmap ims).
  rewrite Hd. destruct (tmap ims !! tagStr) as [td'|] eqn:Hk.
  - rewrite (Hraw (mk_is_Some _ _ eq_refl)) in Hk. simplify_eq.
    by rewrite unlock_lock.
  - rewrite Hp, He, Hline. by rewrite unlock_lock.
Qed.

(** C1.  When a call of [GetOrCreateJournal] has returned a source, a
    second call whose tag string has the same line returns the same
    source and changes neither the service nor the files (no insertion,
    no save); the index has one entry for that line. *)
Theorem GetOrCreateJournal_idempotent
    tagStr1 tagStr2 s1 s2 new1 new2 io1 io2 ims fs j ims1 fs1 :
  index_wf (tmap ims) ->
  tag_Parse tagStr1 = (s1, None) -> tag_Parse tagStr2 = (s2, None) ->
  Set_Line s1 = Set_Line s2 -> Set_IsEmpty s2 = false ->
  GetOrCreateJournal tagStr1 new1 io1 ims fs = Returns (j, None) ims1 fs1 ->
  GetOrCreateJournal tagStr2 new2 io2 ims1 fs1 = Returns (j, None) ims1 fs1
  ∧ ∃ td, tmap ims1 !! Set_Line s1 = Some td ∧ Src td = j
      ∧ ∀ k td', tmap ims1 !! k = Some td' ->
                 Set_Line (tags td') = Set_Line s1 -> k = Set_Line s1 ∧ td' = td.
Proof.
  intros Hwf Hp1 Hp2 HL He2 H1.
  apply GetOrCreateJournal_success_inv in H1
    as (Hl & Hd & Hl1 & Hd1 & [(td & Hraw & Hj & -> & ->)
        |[(tgs & td & Hraw & Hp & He & Hline & Hj & -> & ->)
         |(tgs & Hraw & Hp & He & Hline & -> & Hm1)]]).
  - (* the first string is a key of the index *)
    destruct (Hwf _ _ Hraw) as (Hp' & Hk & _).
    assert (s1 = tags td) as -> by congruence.
    split.
    + rewrite <- Hj. apply GetOrCreateJournal_present with (tgs := s2); try done.
      * by rewrite <- HL, Hk.
      * intros [td' Hraw']. destruct (Hwf _ _ Hraw') as (Hp'' & Hk' & _).
        assert (s2 = tags td') as -> by congruence. done.
    + exists td. rewrite Hk. split; [done|]. split; [done|].
      intros k td' Hk' Hline'. destruct (Hwf _ _ Hk') as (_ & Hkk & _).
      assert (k = tagStr1) as -> by congruence. split; [done|]. congruence.
  - (* the line of the first string is a key of the index *)
    assert (s1 = tgs) as -> by congruence.
    split.
    + rewrite <- Hj. apply GetOrCreateJournal_present with (tgs := s2); try done.
      * by rewrite <- HL.
      * intros [td' Hraw']. destruct (Hwf _ _ Hraw') as (Hp'' & Hk' & _).
        assert (s2 = tags td') as -> by congruence. done.
    + exists td. split; [done|]. split; [done|].
      intros k td' Hk' Hline'. destruct (Hwf _ _ Hk') as (_ & Hkk & _).
      assert (k = Set_Line tgs) as -> by congruence. split; [done|]. congruence.
  - (* the first call created the entry *)
    assert (s1 = tgs) as -> by congruence.
    split.
    + change new1 with (Src {| tags := tgs; Src := new1 |}).
      apply GetOrCreateJournal_present with (tgs := s2); try done.
      * rewrite Hm1, <- HL. apply lookup_insert_eq.
      * rewrite Hm1. intros [td' Hraw'].
        destruct (decide (Set_Line tgs = tagStr2)) as [<-|Hne]; [done|].
        rewrite lookup_insert_ne in Hraw' by done.
        destruct (Hwf _ _ Hraw') as (Hp'' & Hk' & _).
        assert (s2 = tags td') as -> by congruence. done.
    + exists {| tags := tgs; Src := new1 |}. rewrite Hm1.
      split; [apply lookup_insert_eq|]. split; [done|].
      intros k td' Hk' Hline'.
      destruct (decide (Set_Line tgs = k)) as [<-|Hne].
      * rewrite lookup_insert_eq in Hk'. by simplify_eq.
      * rewrite lookup_insert_ne in Hk' by done.
        destruct (Hwf _ _ Hk') as (_ & Hkk & _). congruence.
Qed.

(** [GetJournals] releases the mutex on both of the paths that take it,
    and [Shutdown] on its only one ([Shutdown_inv] below). *)
Lemma GetJournals_unlocks srcCond maxSize checkAll order ims fs r ims' fs' :
  lock ims = false ->
  GetJournals srcCond maxSize checkAll order ims fs = Returns r ims' fs' ->
  lock ims' = false.
Proof.
  intros Hl. unfold GetJournals.
  destruct (BuildTagsExpFuncBySource srcCond) as [tef [e|]]; [by intros; simplify_eq|].
  rewrite Hl. change (done (set_lock true ims)) with (done ims).
  destruct (done ims); [by intros; simplify_eq|].
  destruct (scan _ _ _ _ _ _). by intros; simplify_eq.
Qed.

(** ** The index stays sound *)

Lemma index_wf_empty : index_wf (∅ : gmap string tagsDesc).
Proof. apply map_Forall_empty. Qed.

(** [GetOrCreateJournal] keeps the index sound, provided the line of a
    parsed tag set parses to that tag set. *)
Lemma GetOrCreateJournal_index_wf tagStr newSrc io ims fs r ims' fs' :
  (∀ str s, tag_Parse str = (s, None) -> tag_Parse (Set_Line s) = (s, None)) ->
  index_wf (tmap ims) ->
  GetOrCreateJournal tagStr newSrc io ims fs = Returns r ims' fs' ->
  index_wf (tmap ims').
Proof.
  intros Hcanon Hwf. unfold GetOrCreateJournal; intros H.
  destruct (lock ims); [done|]; simpl in H.
  destruct (done ims); [by simplify_eq|].
  destruct (tmap ims !! tagStr) eqn:Hraw; [by simplify_eq|].
  destruct (tag_Parse tagStr) as [tgs [err|]] eqn:Hp; [by simplify_eq|].
  destruct (Set_IsEmpty tgs) eqn:He; [by simplify_eq|].
  destruct (tmap ims !! Set_Line tgs) eqn:Hline; [by simplify_eq|].
  destruct (saveStateUnsafe _ _ _) as [[[e'|] ims1] fs1] eqn:Hsave;
    apply saveStateUnsafe_fields in Hsave as (Hm & _); simplify_eq; simpl; rewrite Hm; simpl.
  - by rewrite delete_insert_id.
  - apply map_Forall_insert_2; [|done]. repeat split; simpl; eauto.
Qed.

(** ** GetJournals *)

Lemma range_of_cons k order m :
  range_of (k :: order) m
  = match m !! k with Some td => (k, td) :: range_of order m | None => range_of order m end.
Proof. unfold range_of; simpl. by destruct (m !! k). Qed.

Lemma range_of_app o1 o2 m : range_of (o1 ++ o2) m = range_of o1 m ++ range_of o2 m.
Proof.
  induction o1 as [|k o1 IH]; [done|].
  rewrite <- app_comm_cons, !range_of_cons, IH. by destruct (m !! k).
Qed.

(** A loop over the map meets every entry once. *)
Lemma range_of_iteration order m :
  iteration_of order m -> range_of order m ≡ₚ map_to_list m.
Proof.
  unfold iteration_of, range_of. intros ->.
  assert (∀ l : list (string * tagsDesc),
    (∀ k td, (k, td) ∈ l -> m !! k = Some td) ->
    omap (λ k, (λ td, (k, td)) <$> m !! k) l.*1 = l) as Hl.
  { induction l as [|[k td] l IH]; intros Hin; [done|]. simpl.
    rewrite (Hin k td) by left. simpl. f_equal.
    apply IH. intros k' td' ?. apply Hin. by right. }
  rewrite Hl; [done|]. intros k td. apply elem_of_map_to_list.
Qed.

Lemma size_matching tef m :
  size (matching tef m)
  = length (filter (λ e : string * tagsDesc, tef (tags e.2) = true) (map_to_list m)).
Proof.
  unfold matching. induction m as [|k td m Hk IH] using map_ind.
  - by rewrite map_filter_empty, map_size_empty, map_to_list_empty.
  - rewrite (map_to_list_insert m k td Hk), filter_cons.
    rewrite map_filter_insert. cbn [snd]. destruct (decide (tef (tags td) = true)).
    + rewrite map_size_insert_None; [by rewrite IH|].
      apply map_lookup_filter_None. by left.
    + by rewrite delete_id.
Qed.

(** The result never grows beyond [maxSize]. *)
Lemma scan_size tef maxSize checkAll l res count :
  Z.of_nat (size (scan tef maxSize checkAll l res count).1)
  ≤ Z.max (Z.of_nat (size res)) maxSize.
Proof.
  induction l as [|[k td] l IH] in res, count |- *; simpl; [lia|].
  destruct (tef (tags td)); [|apply IH].
  destruct (Z.ltb_spec (Z.of_nat (size res)) maxSize) as [Hlt|Hge].
  - etrans; [apply IH|].
    pose proof (map_size_insert (Set_Line (tags td)) (Src td) res) as Hs.
    destruct (res !! Set_Line (tags td)); simpl in Hs; lia.
  - destruct checkAll; simpl; [apply IH|lia].
Qed.

(** With [checkAll] every entry is looked at and every match counted. *)
Lemma scan_count_all tef maxSize l res count :
  (scan tef maxSize true l res count).2
  = count + Z.of_nat (length (filter (λ e : string * tagsDesc, tef (tags e.2) = true) l)).
Proof.
  induction l as [|[k td] l IH] in res, count |- *; simpl; [lia|].
  rewrite filter_cons; cbn [snd].
  destruct (tef (tags td)) eqn:Ht; simpl.
  - destruct (Z.of_nat (size res) <? maxSize); simpl; rewrite IH; simpl; lia.
  - rewrite IH. done.
Qed.

(** In both modes the count is at most the number of matches met. *)
Lemma scan_count_le tef maxSize checkAll l res count :
  (scan tef maxSize checkAll l res count).2
  ≤ count + Z.of_nat (length (filter (λ e : string * tagsDesc, tef (tags e.2) = true) l)).
Proof.
  induction l as [|[k td] l IH] in res, count |- *; simpl; [lia|].
  rewrite filter_cons; cbn [snd].
  destruct (tef (tags td)) eqn:Ht; simpl.
  - destruct (Z.of_nat (size res) <? maxSize); simpl.
    + etrans; [apply IH|]. lia.
    + destruct checkAll; simpl; [etrans; [apply IH|]|]; lia.
  - apply IH.
Qed.

(** Without [checkAll] the loop ends at the first match it meets once
    the result is full: the entries after it are not looked at. *)
Lemma scan_break tef maxSize pre e post res count :
  tef (tags e.2) = true ->
  maxSize ≤ Z.of_nat (size (scan tef maxSize false pre res count).1) ->
  scan tef maxSize false (pre ++ e :: post) res count
  = scan tef maxSize false (pre ++ [e]) res count.
Proof.
  intros He. induction pre as [|[k td] pre IH] in res, count |- *; simpl.
  - destruct e as [k td]; simpl in *. rewrite He.
    intros Hfull. destruct (Z.ltb_spec (Z.of_nat (size res)) maxSize); [lia|done].
  - destruct (tef (tags td)); [|apply IH].
    destruct (Z.of_nat (size res) <? maxSize); simpl; [apply IH|done].
Qed.

(** C5.  For a selector that compiles and a loop over the whole index:
    with [checkAll] the count is the number of entries whose tag set
    satisfies the predicate, whatever [maxSize] is; the result has at
    most [maxSize] entries (none when [maxSize] is negative); without
    [checkAll] the loop ends at the first match met once the result has
    [maxSize] entries, and what follows it in the loop is not looked at. *)
Theorem GetJournals_scan srcCond tef maxSize order ims fs :
  lock ims = false -> done ims = false ->
  BuildTagsExpFuncBySource srcCond = (tef, None) ->
  iteration_of order (tmap ims) ->
  (∃ res, GetJournals srcCond maxSize true order ims fs
            = Returns (res, Z.of_nat (size (matching tef (tmap ims))), None) ims fs
          ∧ Z.of_nat (size res) ≤ Z.max 0 maxSize)
  ∧ (∃ res count, GetJournals srcCond maxSize false order ims fs
                    = Returns (res, count, None) ims fs
          ∧ Z.of_nat (size res) ≤ Z.max 0 maxSize
          ∧ count ≤ Z.of_nat (size (matching tef (tmap ims))))
  ∧ (∀ pre k td post,
       order = pre ++ k :: post -> tmap ims !! k = Some td -> tef (tags td) = true ->
       maxSize ≤ Z.of_nat (size (scan tef maxSize false (range_of pre (tmap ims)) ∅ 0).1) ->
       GetJournals srcCond maxSize false order ims fs
       = GetJournals srcCond maxSize false (pre ++ [k]) ims fs).
Proof.
  intros Hl Hd Hc Hit. unfold GetJournals. rewrite Hc, Hl.
  change (done (set_lock true ims)) with (done ims).
  change (tmap (set_lock true ims)) with (tmap ims).
  rewrite Hd, unlock_lock by done.
  split; [|split].
  - destruct (scan tef maxSize true _ ∅ 0) as [res count] eqn:Hs.
    exists res. split.
    + do 3 f_equal. change count with (res, count).2. rewrite <- Hs, scan_count_all.
      rewrite size_matching, (range_of_iteration _ _ Hit). lia.
    + change res with (res, count).1. rewrite <- Hs.
      etrans; [apply scan_size|]. by rewrite map_size_empty.
  - destruct (scan tef maxSize false _ ∅ 0) as [res count] eqn:Hs.
    exists res, count. split; [done|]. split.
    + change res with (res, count).1. rewrite <- Hs.
      etrans; [apply scan_size|]. by rewrite map_size_empty.
    + change count with (res, count).2. rewrite <- Hs.
      etrans; [apply scan_count_le|].
      rewrite size_matching, (range_of_iteration _ _ Hit). lia.
  - intros pre k td post -> Hk Ht Hfull.
    rewrite !range_of_app, !range_of_cons, Hk.
    change (range_of [] (tmap ims)) with (@nil (string * tagsDesc)).
    by rewrite (scan_break tef maxSize _ (k, td) _ ∅ 0 Ht Hfull).
Qed.

(** ** Saving and loading *)

(** A save without faults leaves the encoded document in [tindex.dat]. *)
Lemma saveStateUnsafe_writes ims fs data :
  DoNotSave (Config ims) = false ->
  json_Marshal (document (tmap ims)) = Some data ->
  ∃ ims1 fs1, saveStateUnsafe no_faults ims fs = (None, ims1, fs1)
    ∧ tmap ims1 = tmap ims
    ∧ fs1 !! path_Join (WorkingDir (Config ims)) cIdxFileName = Some data.
Proof.
  intros Hs Hm. unfold saveStateUnsafe; simpl. rewrite Hs, Hm.
  unfold stat_IsNotExist, os_Rename, ioutil_WriteFile; simpl.
  case_bool_decide as Hfn; simpl.
  - eexists _, _. split; [done|]. split; [done|]. apply lookup_insert_eq.
  - destruct (fs !! _) eqn:E; [|done]. simpl.
    eexists _, _. split; [done|]. split; [done|]. apply lookup_insert_eq.
Qed.

(** The loop of [loadState] fails as soon as one key it meets does not
    parse. *)
Lemma reparse_error order ims k :
  k ∈ order -> is_Some (tmap ims !! k) -> is_Some (tag_Parse k).2 ->
  is_Some (reparse order ims).1.
Proof.
  intros Hin. induction order as [|tln rest IH] in ims, Hin |- *; [by inversion Hin|].
  intros Hk He. simpl.
  destruct (tmap ims !! tln) as [td|] eqn:Htln.
  - destruct (tag_Parse tln) as [tgs [e|]] eqn:Hp; [by eexists|].
    apply IH.
    + apply elem_of_cons in Hin as [->|]; [|done].
      rewrite Hp in He. by destruct He.
    + simpl. destruct (decide (tln = k)) as [->|Hne].
      * by rewrite lookup_insert_eq.
      * by rewrite lookup_insert_ne.
    + done.
  - apply IH; [|done..].
    apply elem_of_cons in Hin as [->|]; [|done].
    rewrite Htln in Hk. by destruct Hk.
Qed.

(** When every key it meets parses, the loop gives each of them the
    tags it parses to, and touches nothing else. *)
Lemma reparse_ok order ims :
  (∀ k, k ∈ order -> is_Some (tmap ims !! k) -> (tag_Parse k).2 = None) ->
  ∃ ims', reparse order ims = (None, ims')
    ∧ Config ims' = Config ims ∧ lock ims' = lock ims ∧ done ims' = done ims
    ∧ logger ims' = logger ims
    ∧ ∀ k, tmap ims' !! k
           = if decide (k ∈ order)
             then (λ td, {| tags := (tag_Parse k).1; Src := Src td |}) <$> tmap ims !! k
             else tmap ims !! k.
Proof.
  induction order as [|tln rest IH] in ims |- *; intros Hok.
  - exists ims. do 5 (split; [done|]). intros k. rewrite decide_False; [done|].
    apply not_elem_of_nil.
  - simpl. destruct (tmap ims !! tln) as [td|] eqn:Htln.
    + assert (tln ∈ tln :: rest) as Hhd by left.
      pose proof (Hok tln Hhd (mk_is_Some _ _ Htln)) as Hp.
      destruct (tag_Parse tln) as [tgs e] eqn:Hpt. simpl in Hp. subst e.
      edestruct (IH (set_tmap (<[tln:={| tags := tgs; Src := Src td |}]> (tmap ims)) ims))
        as (ims' & -> & ? & ? & ? & ? & Hlk).
      { intros k Hk Hsome. apply Hok; [by right|]. simpl in Hsome.
        destruct (decide (tln = k)) as [->|Hne]; [by rewrite Htln|].
        by rewrite lookup_insert_ne in Hsome. }
      exists ims'. do 5 (split; [done|]). intros k. rewrite Hlk. simpl.
      destruct (decide (tln = k)) as [<-|Hne].
      * rewrite lookup_insert_eq, Htln, Hpt. rewrite (decide_True (P := tln ∈ tln :: rest)) by left.
        by case_decide.
      * rewrite lookup_insert_ne by done.
        destruct (decide (k ∈ rest)) as [Hr|Hr].
        -- by rewrite decide_True by (by right).
        -- rewrite decide_False; [done|]. intros [?|?]%elem_of_cons; by simplify_eq.
    + destruct (IH ims) as (ims' & -> & ? & ? & ? & ? & Hlk).
      { intros k Hk Hsome. apply Hok; [by right|done]. }
      exists ims'. do 5 (split; [done|]). intros k. rewrite Hlk.
      destruct (decide (k ∈ rest)) as [Hr|Hr].
      * by rewrite decide_True by (by right).
      * case_decide as Hc; [|done].
        apply elem_of_cons in Hc as [->|]; [|done]. by rewrite Htln.
Qed.

Lemma iteration_of_eq order m : order = (map_to_list m).*1 -> iteration_of order m.
Proof. intros ->. unfold iteration_of. reflexivity. Qed.

Lemma iteration_of_elem order m k :
  iteration_of order m -> (k ∈ order ↔ is_Some (m !! k)).
Proof.
  unfold iteration_of. intros ->. rewrite list_elem_of_fmap. split.
  - intros ([k' td] & -> & Hin). apply elem_of_map_to_list in Hin. by eexists.
  - intros [td Hk]. exists (k, td). split; [done|]. by apply elem_of_map_to_list.
Qed.

(** C9.  When [tindex.dat] does not exist, [loadState] of a new service
    returns no error and the index is empty.  When the file is read and
    decoded and one of the keys of the index then fails to parse,
    [loadState] returns an error. *)
Theorem loadState_missing_or_unparseable io order cfg fs :
  (stat_IsNotExist io (path_Join (WorkingDir cfg) cIdxFileName) fs = true ->
   ∃ ims', loadState io order (NewInmemServiceWithConfig cfg) fs = (None, ims')
           ∧ tmap ims' = ∅)
  ∧ (∀ ims data doc k,
       stat_IsNotExist io (path_Join (WorkingDir (Config ims)) cIdxFileName) fs = false ->
       ioutil_ReadFile io (path_Join (WorkingDir (Config ims)) cIdxFileName) fs = Some data ->
       json_Unmarshal data = (doc, None) ->
       iteration_of order (unmarshal_into doc (tmap ims)) ->
       is_Some (doc !! k) -> is_Some (tag_Parse k).2 ->
       ∃ e ims', loadState io order ims fs = (Some e, ims')).
Proof.
  split.
  - intros Hne. unfold loadState; simpl. rewrite Hne. eauto.
  - intros ims data doc k Hex Hrd Hdoc Hit [src Hk] Hbad.
    unfold loadState. rewrite Hex, Hrd, Hdoc.
    assert (is_Some (unmarshal_into doc (tmap ims) !! k)) as Hsome.
    { unfold unmarshal_into. eexists. apply lookup_union_Some_l.
      by rewrite lookup_fmap, Hk. }
    pose proof (proj2 (iteration_of_elem _ _ k Hit) Hsome) as Hin.
    set (st := set_tmap _ _).
    destruct (reparse_error order st k Hin Hsome Hbad) as [e He].
    destruct (reparse order st) as [err ims']. simpl in He. subst err. simpl. eauto.
Qed.

(** C3.  An index whose entries are sound, saved without faults by a
    service that persists, and loaded from the file by a service whose
    index has no other keys (a new one, or the same one), is the same
    index again: same lines, and for each line the same tag set and the
    same source.  The codec is asked to give back the document it
    encoded. *)
Theorem save_load_roundtrip ims fs data order ims0 :
  DoNotSave (Config ims) = false ->
  index_wf (tmap ims) ->
  json_Marshal (document (tmap ims)) = Some data ->
  json_Unmarshal data = (document (tmap ims), None) ->
  Config ims0 = Config ims -> dom (tmap ims0) ⊆ dom (tmap ims) ->
  iteration_of order (tmap ims) ->
  ∃ ims1 fs1 ims2,
    saveStateUnsafe no_faults ims fs = (None, ims1, fs1)
    ∧ loadState no_faults order ims0 fs1 = (None, ims2)
    ∧ tmap ims2 = tmap ims.
Proof.
  intros Hs Hwf Hm Hu Hcfg Hdom Hit.
  destruct (saveStateUnsafe_writes ims fs data Hs Hm) as (ims1 & fs1 & Hsave & _ & Hfile).
  exists ims1, fs1. rewrite Hsave.
  unfold loadState, stat_IsNotExist, ioutil_ReadFile. rewrite Hcfg; simpl.
  rewrite Hfile, bool_decide_eq_false_2 by done. rewrite Hu.
  set (st := set_tmap _ _).
  assert (∀ k, tmap st !! k
               = (λ td, {| tags := tag_zero; Src := Src td |}) <$> tmap ims !! k) as Hst.
  { intros k. subst st; simpl. unfold unmarshal_into, document.
    rewrite lookup_union, !lookup_fmap.
    destruct (tmap ims !! k) as [td|] eqn:Hk; simpl.
    - by destruct (tmap ims0 !! k).
    - apply not_elem_of_dom in Hk.
      assert (tmap ims0 !! k = None) as -> by (apply not_elem_of_dom; set_solver).
      done. }
  destruct (reparse_ok order st) as (ims2 & Hr & _ & _ & _ & _ & Hlk).
  { intros k _ Hsome. rewrite Hst in Hsome.
    destruct (tmap ims !! k) as [td|] eqn:Hk; [|by destruct Hsome].
    destruct (Hwf _ _ Hk) as (-> & _). done. }
  rewrite Hr. exists ims2. split; [done|]. split; [done|].
  apply map_eq. intros k. rewrite Hlk, Hst.
  destruct (tmap ims !! k) as [td|] eqn:Hk.
  - rewrite decide_True by (apply (iteration_of_elem _ _ k Hit); eauto).
    simpl. destruct (Hwf _ _ Hk) as (-> & _). by destruct td.
  - by case_decide.
Qed.

(** ** The consistency check *)

Lemma elem_of_indexed m src :
  src ∈ indexed m ↔ ∃ k td, m !! k = Some td ∧ Src td = src.
Proof.
  unfold indexed. rewrite elem_of_list_to_set, list_elem_of_fmap. split.
  - intros (td & -> & Hin). apply list_elem_of_fmap in Hin as ([k td'] & -> & Hin).
    exists k, td'. split; [|done]. by apply elem_of_map_to_list.
  - intros (k & td & Hk & <-). exists td. split; [done|].
    apply list_elem_of_fmap. exists (k, td). split; [done|].
    by apply elem_of_map_to_list.
Qed.

(** The loop only writes to the log. *)
Lemma reconcile_fields knwnJrnls km fail ims :
  let ims' := (reconcile knwnJrnls km fail ims).2 in
  tmap ims' = tmap ims ∧ Config ims' = Config ims ∧ done ims' = done ims
  ∧ lock ims' = lock ims.
Proof.
  induction knwnJrnls as [|src rest IH] in km, fail, ims |- *; simpl; [done|].
  case_decide; [apply IH|].
  destruct (IH km true (log Error "found journal " ims)) as (? & ? & ? & ?). done.
Qed.

Lemma reconcile_fail_stays knwnJrnls km ims :
  (reconcile knwnJrnls km true ims).1.2 = true.
Proof.
  induction knwnJrnls as [|src rest IH] in km, ims |- *; simpl; [done|].
  case_decide; apply IH.
Qed.

(** A journal of the listing that the index does not refer to fails the
    check. *)
Lemma reconcile_orphan knwnJrnls km fail ims src :
  src ∈ knwnJrnls -> src ∉ km -> (reconcile knwnJrnls km fail ims).1.2 = true.
Proof.
  induction knwnJrnls as [|x rest IH] in km, fail, ims |- *; intros Hin Hkm;
    [by inversion Hin|]. simpl.
  apply elem_of_cons in Hin as [<-|Hin].
  - rewrite decide_False by done. apply reconcile_fail_stays.
  - case_decide; apply IH; set_solver.
Qed.

(** A listing without repetition, all of whose journals the index refers
    to, passes; what remains of [km] are the sources without journal. *)
Lemma reconcile_pass knwnJrnls km ims :
  NoDup knwnJrnls -> (∀ src, src ∈ knwnJrnls -> src ∈ km) ->
  reconcile knwnJrnls km false ims = (km ∖ list_to_set knwnJrnls, false, ims).
Proof.
  induction knwnJrnls as [|x rest IH] in km |- *; intros Hnd Hall; simpl.
  - do 2 f_equal. set_solver.
  - apply NoDup_cons in Hnd as [Hx Hnd].
    rewrite decide_True by (apply Hall; left).
    rewrite IH; [|done|].
    + do 2 f_equal. set_solver.
    + intros src Hsrc. apply elem_of_difference. split; [apply Hall; by right|].
      set_solver.
Qed.




(** ** After Shutdown *)

Lemma Shutdown_returns ims fs :
  lock ims = false ->
  ∃ ims', Shutdown ims fs = Returns tt ims' fs
          ∧ done ims' = true ∧ lock ims' = false ∧ tmap ims' = tmap ims.
Proof. intros Hl. unfold Shutdown; simpl. rewrite Hl. eauto. Qed.

Lemma Shutdown_inv ims fs u ims' fs' :
  Shutdown ims fs = Returns u ims' fs' ->
  done ims' = true ∧ lock ims' = false ∧ tmap ims' = tmap ims ∧ fs' = fs.
Proof.
  unfold Shutdown; simpl. destruct (lock ims); [done|].
  intros H; simplify_eq; done.
Qed.

Lemma GetOrCreateJournal_closed tagStr newSrc io ims fs :
  done ims = true -> lock ims = false ->
  GetOrCreateJournal tagStr newSrc io ims fs = Returns ("", Some ErrShutDown) ims fs.
Proof.
  intros Hd Hl. unfold GetOrCreateJournal. rewrite Hl.
  change (done (set_lock true ims)) with (done ims). by rewrite Hd, unlock_lock.
Qed.

(** The selector is compiled before the mutex is taken and the flag
    looked at, so the error of the compiler comes first. *)
Lemma GetJournals_closed srcCond maxSize checkAll order ims fs :
  done ims = true -> lock ims = false ->
  GetJournals srcCond maxSize checkAll order ims fs =
    Returns (∅, 0, Some (match (BuildTagsExpFuncBySource srcCond).2 with
                         | Some e => ErrLib e
                         | None => ErrShutDown
                         end)) ims fs.
Proof.
  intros Hd Hl. unfold GetJournals.
  destruct (BuildTagsExpFuncBySource srcCond) as [tef [e|]]; simpl; [done|].
  rewrite Hl. change (done (set_lock true ims)) with (done ims).
  by rewrite Hd, unlock_lock.
Qed.

(** C7, as the code has it.  In the state a completed [Shutdown] leaves,
    [GetOrCreateJournal] fails with the shut-down error, and so does
    [GetJournals] when its selector compiles; when the selector does not
    compile, [GetJournals] fails with the error of the compiler.  In all
    three cases the service and the files are left as they were. *)
Theorem closed_after_Shutdown ims0 fs0 u ims fs :
  Shutdown ims0 fs0 = Returns u ims fs ->
  (∀ tagStr newSrc io,
     GetOrCreateJournal tagStr newSrc io ims fs = Returns ("", Some ErrShutDown) ims fs)
  ∧ (∀ srcCond maxSize checkAll order,
       (BuildTagsExpFuncBySource srcCond).2 = None ->
       GetJournals srcCond maxSize checkAll order ims fs
         = Returns (∅, 0, Some ErrShutDown) ims fs)
  ∧ (∀ srcCond maxSize checkAll order e,
       (BuildTagsExpFuncBySource srcCond).2 = Some e ->
       GetJournals srcCond maxSize checkAll order ims fs
         = Returns (∅, 0, Some (ErrLib e)) ims fs).
Proof.
  intros (Hd & Hl & _)%Shutdown_inv. split; [|split]; intros.
  - by apply GetOrCreateJournal_closed.
  - rewrite GetJournals_closed by done. by rewrite H.
  - rewrite GetJournals_closed by done. by rewrite H.
Qed.

(** A call other than [Init] in a closed service: the index, the flag,
    the mutex and the files stay, and unless the call is [Shutdown] it
    returns an error. *)
Lemma perform_closed c ims fs :
  done ims = true -> lock ims = false -> is_Init c = false ->
  ∃ err ims', perform c ims fs = Returns err ims' fs
    ∧ tmap ims' = tmap ims ∧ done ims' = true ∧ lock ims' = false
    ∧ (is_Shutdown c = false -> is_Some err).
Proof.
  intros Hd Hl Hc. destruct c as [| |tagStr newSrc io|srcCond maxSize checkAll order];
    [done| | |]; simpl.
  - destruct (Shutdown_returns ims fs Hl) as (ims' & -> & ? & ? & ?).
    exists None, ims'. by repeat split.
  - rewrite GetOrCreateJournal_closed by done. eexists _, ims. by repeat split; eauto.
  - rewrite GetJournals_closed by done. eexists _, ims. by repeat split; eauto.
Qed.

(** C8, as the code has it.  After [Shutdown], over every sequence of
    [Shutdown], [GetOrCreateJournal] and [GetJournals] calls, every call
    returns, none changes the index or the files, the service stays
    closed, and every [GetOrCreateJournal] and [GetJournals] fails.
    ([Init] is left out: it sets [done] back to false.) *)
Theorem Shutdown_terminal_without_Init cs ims0 fs :
  lock ims0 = false ->
  Forall (λ c, is_Init c = false) cs ->
  ∃ errs ims', run (CallShutdown :: cs) ims0 fs = Returns (None :: errs) ims' fs
    ∧ tmap ims' = tmap ims0 ∧ done ims' = true ∧ lock ims' = false
    ∧ Forall2 (λ c err, is_Shutdown c = false -> is_Some err) cs errs.
Proof.
  intros Hl0 Hcs.
  destruct (Shutdown_returns ims0 fs Hl0) as (ims & HS & Hd & Hl & Hm).
  cbn [run perform]. rewrite HS. rewrite <- Hm. clear HS Hm Hl0 ims0.
  induction Hcs as [|c cs Hc Hcs IH] in ims, Hd, Hl |- *.
  - exists [], ims. by repeat split.
  - destruct (perform_closed c ims fs Hd Hl Hc) as (err & ims1 & Hp & Hm1 & Hd1 & Hl1 & He).
    destruct (IH ims1 Hd1 Hl1) as (errs & ims' & Hr & Hm' & Hd' & Hl' & Hf).
    cbn [run]. rewrite Hp.
    destruct (run cs ims1 fs) as [errs1 ims2 fs2|] eqn:Hrun; [|done].
    simplify_eq. exists (err :: errs), ims'.
    repeat split; try done; [congruence|]. by constructor.
Qed.

(** * Further properties of the code *)

(** ** Files *)

Lemma path_Join_inj dir a b : path_Join dir a = path_Join dir b -> a = b.
Proof.
  unfold path_Join. case_decide; [done|].
  intros Heq. by do 2 apply (inj (String.app _)) in Heq.
Qed.

Lemma idx_bak_ne ims : idx_file ims ≠ bak_file ims.
Proof. intros H%path_Join_inj. discriminate. Qed.

(** X1.  A save without faults of a service that persists, when
    [tindex.dat] exists: afterwards [tindex.bak] has the previous content
    of [tindex.dat], [tindex.dat] has the encoding of the index, and no
    other file has changed. *)
Theorem saveStateUnsafe_rotates_backup ims fs old data :
  DoNotSave (Config ims) = false ->
  fs !! idx_file ims = Some old ->
  json_Marshal (document (tmap ims)) = Some data ->
  ∃ ims' fs', saveStateUnsafe no_faults ims fs = (None, ims', fs')
    ∧ fs' !! idx_file ims = Some data
    ∧ fs' !! bak_file ims = Some old
    ∧ ∀ p, p ≠ idx_file ims -> p ≠ bak_file ims -> fs' !! p = fs !! p.
Proof.
  intros Hs Hold Hm. pose proof (idx_bak_ne ims) as Hne.
  unfold idx_file, bak_file in *.
  unfold saveStateUnsafe; simpl. rewrite Hs, Hm.
  unfold stat_IsNotExist, os_Rename, ioutil_WriteFile; simpl.
  rewrite Hold. rewrite bool_decide_eq_false_2 by done. simpl.
  eexists _, _. split; [reflexivity|]. split; [apply lookup_insert_eq|]. split.
  - rewrite lookup_insert_ne by done. apply lookup_insert_eq.
  - intros p H1 H2. by rewrite !lookup_insert_ne, lookup_delete_ne.
Qed.

(** The save whose write fails, after a rename that succeeded. *)
Lemma saveStateUnsafe_write_fails ims fs io old data rest :
  DoNotSave (Config ims) = false ->
  fs !! idx_file ims = Some old ->
  renameErr io = false -> writeErr io = Some rest ->
  json_Marshal (document (tmap ims)) = Some data ->
  ∃ ims' fs', saveStateUnsafe io ims fs = (Some (ErrWrite (idx_file ims)), ims', fs')
    ∧ fs' !! idx_file ims = rest
    ∧ fs' !! bak_file ims = Some old
    ∧ tmap ims' = tmap ims.
Proof.
  intros Hs Hold Hr Hw Hm. pose proof (idx_bak_ne ims) as Hne.
  unfold idx_file, bak_file in *.
  unfold saveStateUnsafe; simpl. rewrite Hs, Hm.
  unfold stat_IsNotExist, os_Rename, ioutil_WriteFile; simpl.
  rewrite Hold, Hr, Hw.
  rewrite bool_decide_eq_false_2 by done. rewrite andb_false_r. simpl.
  destruct rest as [r|]; simpl; eexists _, _; (split; [reflexivity|]).
  - split; [apply lookup_insert_eq|]. split; [|done].
    rewrite lookup_insert_ne by done. apply lookup_insert_eq.
  - split; [|split; [apply lookup_insert_eq|done]].
    rewrite lookup_insert_ne by done. apply lookup_delete_eq.
Qed.

(** X2.  When [tindex.dat] exists, the rename succeeds and the write
    fails, the save returns the write error, [tindex.bak] has the
    previous content and [tindex.dat] has what the failed write left
    (nothing, or a partial file): the previous snapshot survives, under
    the backup name only. *)
Theorem saveStateUnsafe_write_failure ims fs io old data rest :
  DoNotSave (Config ims) = false ->
  fs !! idx_file ims = Some old ->
  renameErr io = false -> writeErr io = Some rest ->
  json_Marshal (document (tmap ims)) = Some data ->
  ∃ ims' fs', saveStateUnsafe io ims fs = (Some (ErrWrite (idx_file ims)), ims', fs')
    ∧ fs' !! idx_file ims = rest
    ∧ fs' !! bak_file ims = Some old
    ∧ tmap ims' = tmap ims.
Proof. apply saveStateUnsafe_write_fails. Qed.

(** What a save may do to the files, whatever the faults. *)
Lemma saveStateUnsafe_disk io ims fs e ims' fs' :
  saveStateUnsafe io ims fs = (e, ims', fs') ->
  (DoNotSave (Config ims) = true -> fs' = fs)
  ∧ ∀ p, p ≠ idx_file ims -> p ≠ bak_file ims -> fs' !! p = fs !! p.
Proof.
  unfold saveStateUnsafe, idx_file, bak_file, os_Rename, ioutil_WriteFile; simpl.
  intros H. split.
  - intros Hd. rewrite Hd in H. by simplify_eq.
  - intros p H1 H2.
    repeat case_match; simplify_eq;
      rewrite ?lookup_insert_ne, ?lookup_delete_ne by done; done.
Qed.

Lemma reparse_fields order ims :
  let ims' := (reparse order ims).2 in
  Config ims' = Config ims ∧ lock ims' = lock ims ∧ done ims' = done ims
  ∧ dom (tmap ims') = dom (tmap ims).
Proof.
  induction order as [|tln rest IH] in ims |- *; simpl; [done|].
  destruct (tmap ims !! tln) as [td|] eqn:Htln; [|apply IH].
  destruct (tag_Parse tln) as [tgs [e|]]; simpl.
  - repeat split. rewrite dom_insert_L. apply elem_of_dom_2 in Htln. set_solver.
  - destruct (IH (set_tmap (<[tln:={| tags := tgs; Src := Src td |}]> (tmap ims)) ims))
      as (-> & -> & -> & ->). simpl. repeat split.
    rewrite dom_insert_L. apply elem_of_dom_2 in Htln. set_solver.
Qed.

Lemma loadState_fields io order ims fs :
  let ims' := (loadState io order ims fs).2 in
  Config ims' = Config ims ∧ lock ims' = lock ims ∧ done ims' = done ims.
Proof.
  unfold loadState. case_match; [done|]. case_match; [|done].
  destruct (json_Unmarshal _) as [doc [e|]]; [done|].
  pose proof (reparse_fields order
    (set_tmap (unmarshal_into doc (tmap (log Debug "loadState() from " ims)))
       (log Debug "loadState() from " ims))) as (H1 & H2 & H3 & _).
  destruct (reparse order _) as [err ims']. simpl in *. done.
Qed.

(** [loadState] looks at [tindex.dat] and at no other file: the backup
    is never read. *)
Lemma loadState_reads_idx_only io order ims fs1 fs2 :
  fs1 !! idx_file ims = fs2 !! idx_file ims ->
  loadState io order ims fs1 = loadState io order ims fs2.
Proof.
  unfold idx_file, loadState, stat_IsNotExist, ioutil_ReadFile. by intros ->.
Qed.

(** ** GetOrCreateJournal *)

(** The call that creates an entry and saves it. *)
Lemma GetOrCreateJournal_new_entry tagStr tgs newSrc ims fs data :
  lock ims = false -> done ims = false -> DoNotSave (Config ims) = false ->
  tmap ims !! tagStr = None ->
  tag_Parse tagStr = (tgs, None) -> Set_IsEmpty tgs = false ->
  tmap ims !! Set_Line tgs = None ->
  json_Marshal
    (document (<[Set_Line tgs := {| tags := tgs; Src := newSrc |}]> (tmap ims)))
    = Some data ->
  ∃ ims' fs', GetOrCreateJournal tagStr newSrc no_faults ims fs
              = Returns (newSrc, None) ims' fs'
    ∧ tmap ims' = <[Set_Line tgs := {| tags := tgs; Src := newSrc |}]> (tmap ims)
    ∧ lock ims' = false
    ∧ fs' !! idx_file ims = Some data.
Proof.
  intros Hl Hd Hs Hraw Hp He Hline Hm.
  unfold GetOrCreateJournal. rewrite Hl.
  change (done (set_lock true ims)) with (done ims).
  change (tmap (set_lock true ims)) with (tmap ims).
  rewrite Hd, Hraw, Hp, He, Hline.
  destruct (saveStateUnsafe_writes
              (set_tmap (<[Set_Line tgs := {| tags := tgs; Src := newSrc |}]> (tmap ims))
                 (set_lock true ims)) fs data Hs Hm)
    as (ims1 & fs1 & Hsave & Hm1 & Hfile).
  rewrite Hsave. eexists _, _. split; [reflexivity|]. simpl. by rewrite Hm1.
Qed.

(** X3.  A call that creates an entry, on a service that persists and
    without faults: it returns the new source, the index is the old one
    with the entry added under the line of the tag set, the mutex is
    released, and [tindex.dat] has the encoding of the new index. *)
Theorem GetOrCreateJournal_creates tagStr tgs newSrc ims fs data :
  lock ims = false -> done ims = false -> DoNotSave (Config ims) = false ->
  tmap ims !! tagStr = None ->
  tag_Parse tagStr = (tgs, None) -> Set_IsEmpty tgs = false ->
  tmap ims !! Set_Line tgs = None ->
  json_Marshal
    (document (<[Set_Line tgs := {| tags := tgs; Src := newSrc |}]> (tmap ims)))
    = Some data ->
  ∃ ims' fs', GetOrCreateJournal tagStr newSrc no_faults ims fs
              = Returns (newSrc, None) ims' fs'
    ∧ tmap ims' = <[Set_Line tgs := {| tags := tgs; Src := newSrc |}]> (tmap ims)
    ∧ lock ims' = false
    ∧ fs' !! idx_file ims = Some data.
Proof. apply GetOrCreateJournal_new_entry. Qed.

(** What every return of [GetOrCreateJournal] keeps. *)
Lemma GetOrCreateJournal_frame tagStr newSrc io ims fs r ims' fs' :
  GetOrCreateJournal tagStr newSrc io ims fs = Returns r ims' fs' ->
  Config ims' = Config ims ∧ done ims' = done ims
  ∧ tmap ims ⊆ tmap ims'
  ∧ (DoNotSave (Config ims) = true -> fs' = fs)
  ∧ (∀ p, p ≠ idx_file ims -> p ≠ bak_file ims -> fs' !! p = fs !! p).
Proof.
  unfold GetOrCreateJournal; intros H.
  destruct (lock ims); [done|]; simpl in H.
  destruct (done ims) eqn:Hd; [by simplify_eq|].
  destruct (tmap ims !! tagStr) eqn:Hraw; [by simplify_eq|].
  destruct (tag_Parse tagStr) as [tgs [err|]]; [by simplify_eq|].
  destruct (Set_IsEmpty tgs); [by simplify_eq|].
  destruct (tmap ims !! Set_Line tgs) eqn:Hline; [by simplify_eq|].
  destruct (saveStateUnsafe _ _ _) as [[e' ims1] fs1] eqn:Hsave.
  pose proof (saveStateUnsafe_fields _ _ _ _ _ _ Hsave) as (Hm & _ & Hd1 & Hc).
  pose proof (saveStateUnsafe_disk _ _ _ _ _ _ Hsave) as (Hno & Hfr).
  simpl in *. unfold idx_file, bak_file in *. simpl in *.
  destruct e'; simplify_eq; simpl; rewrite ?Hm; simpl.
  - rewrite delete_insert_id by done. repeat split; try done. congruence.
  - repeat split; try done; [congruence|]. by apply insert_subseteq.
Qed.

(** X4.  [GetOrCreateJournal] never removes an entry and never changes
    the source or the tag set of one: whatever it returns, every entry
    of the index it found is in the index it leaves. *)
Theorem GetOrCreateJournal_keeps_entries tagStr newSrc io ims fs r ims' fs' k td :
  GetOrCreateJournal tagStr newSrc io ims fs = Returns r ims' fs' ->
  tmap ims !! k = Some td -> tmap ims' !! k = Some td.
Proof.
  intros (_ & _ & Hsub & _)%GetOrCreateJournal_frame Hk.
  by eapply lookup_weaken.
Qed.

(** X5.  When the identifier generator gives a source that no entry
    has, [GetOrCreateJournal] keeps the sources of the index pairwise
    distinct: no two tag lines share a journal. *)
Theorem GetOrCreateJournal_sources_unique tagStr newSrc io ims fs r ims' fs' :
  sources_unique (tmap ims) -> newSrc ∉ indexed (tmap ims) ->
  GetOrCreateJournal tagStr newSrc io ims fs = Returns r ims' fs' ->
  sources_unique (tmap ims').
Proof.
  intros Hu Hnew. unfold GetOrCreateJournal; intros H.
  destruct (lock ims); [done|]; simpl in H.
  destruct (done ims); [by simplify_eq|].
  destruct (tmap ims !! tagStr) eqn:Hraw; [by simplify_eq|].
  destruct (tag_Parse tagStr) as [tgs [err|]] eqn:Hp; [by simplify_eq|].
  destruct (Set_IsEmpty tgs) eqn:He; [by simplify_eq|].
  destruct (tmap ims !! Set_Line tgs) eqn:Hline; [by simplify_eq|].
  destruct (saveStateUnsafe _ _ _) as [[[e'|] ims1] fs1] eqn:Hsave;
    apply saveStateUnsafe_fields in Hsave as (Hm & _); simplify_eq; simpl; rewrite Hm; simpl.
  - by rewrite delete_insert_id.
  - intros k1 k2 td1 td2 H1 H2 Hsrc.
    destruct (decide (Set_Line tgs = k1)) as [<-|Hn1];
      destruct (decide (Set_Line tgs = k2)) as [<-|Hn2]; [done|..].
    + rewrite lookup_insert_eq in H1. rewrite lookup_insert_ne in H2 by done.
      simplify_eq. simpl in Hsrc. exfalso. apply Hnew, elem_of_indexed. eauto.
    + rewrite lookup_insert_eq in H2. rewrite lookup_insert_ne in H1 by done.
      simplify_eq. simpl in Hsrc. exfalso. apply Hnew, elem_of_indexed. eauto.
    + rewrite lookup_insert_ne in H1, H2 by done. eauto.
Qed.

(** ** Sequences of calls *)

Lemma GetJournals_frame srcCond maxSize checkAll order ims fs r ims' fs' :
  GetJournals srcCond maxSize checkAll order ims fs = Returns r ims' fs' ->
  Config ims' = Config ims ∧ done ims' = done ims ∧ tmap ims' = tmap ims
  ∧ logger ims' = logger ims ∧ fs' = fs.
Proof.
  unfold GetJournals.
  destruct (BuildTagsExpFuncBySource srcCond) as [tef [e|]]; [by intros; simplify_eq|].
  destruct (lock ims); [done|].
  change (done (set_lock true ims)) with (done ims).
  destruct (done ims) eqn:Hd; [by intros; simplify_eq|].
  destruct (scan _ _ _ _ _ _). by intros; simplify_eq.
Qed.

Lemma Init_frame ioL ioS order knwnJrnls ims fs e ims' fs' :
  Init ioL ioS order knwnJrnls ims fs = (e, ims', fs') ->
  Config ims' = Config ims ∧ done ims' = false ∧ lock ims' = lock ims
  ∧ (DoNotSave (Config ims) = true -> fs' = fs)
  ∧ (∀ p, p ≠ idx_file ims -> p ≠ bak_file ims -> fs' !! p = fs !! p).
Proof.
  unfold Init, checkConsistency.
  set (st0 := set_done false (log Info "Initializing..." ims)).
  pose proof (loadState_fields ioL order st0 fs) as (Hc & Hl & Hd).
  destruct (loadState ioL order st0 fs) as [[e1|] ims1]; simpl in Hc, Hl, Hd.
  { intros; simplify_eq. by rewrite Hc, Hl, Hd. }
  set (st := log Info "Checking the index and data consistency" ims1).
  pose proof (reconcile_fields knwnJrnls (indexed (tmap st)) false st) as (_ & Hc2 & Hd2 & Hl2).
  destruct (reconcile knwnJrnls (indexed (tmap st)) false st) as [[km fail] ims2].
  simpl in Hc2, Hd2, Hl2.
  set (st2 := if (0 <? size km)%nat then _ else ims2).
  assert (Config st2 = Config ims ∧ done st2 = false ∧ lock st2 = lock ims)
    as (Hc4 & Hd4 & Hl4).
  { subst st2. destruct (0 <? size km)%nat; simpl; rewrite Hc2, Hd2, Hl2; done. }
  destruct fail.
  - intros; simplify_eq. simpl. done.
  - intros Hsave.
    pose proof (saveStateUnsafe_fields _ _ _ _ _ _ Hsave) as (_ & Hl3 & Hd3 & Hc3).
    pose proof (saveStateUnsafe_disk _ _ _ _ _ _ Hsave) as (Hno & Hfr).
    unfold idx_file, bak_file in *. simpl in *.
    rewrite Hc4 in *. rewrite Hc3, Hl3, Hd3. done.
Qed.

Lemma perform_frame c ims fs err ims' fs' :
  perform c ims fs = Returns err ims' fs' ->
  Config ims' = Config ims
  ∧ (DoNotSave (Config ims) = true -> fs' = fs)
  ∧ (∀ p, p ≠ idx_file ims -> p ≠ bak_file ims -> fs' !! p = fs !! p).
Proof.
  destruct c as [ioL ioS order knwnJrnls| |tagStr newSrc io|srcCond maxSize checkAll order];
    simpl.
  - destruct (Init _ _ _ _ _ _) as [[e ims1] fs1] eqn:HI. intros; simplify_eq.
    by apply Init_frame in HI as (? & _ & _ & ? & ?).
  - destruct (Shutdown ims fs) as [u ims1 fs1|] eqn:HS; [|done]. intros; simplify_eq.
    unfold Shutdown in HS; simpl in HS. destruct (lock ims); by simplify_eq.
  - destruct (GetOrCreateJournal _ _ _ _ _) as [[j e] ims1 fs1|] eqn:HG; [|done].
    intros; simplify_eq. by apply GetOrCreateJournal_frame in HG as (? & _ & _ & ? & ?).
  - destruct (GetJournals _ _ _ _ _ _) as [[[res n] e] ims1 fs1|] eqn:HG; [|done].
    intros; simplify_eq. by apply GetJournals_frame in HG as (? & _ & _ & _ & ->).
Qed.

(** X6.  Over every sequence of calls, [Init] included and whatever the
    faults, the service touches no file but [tindex.dat] and
    [tindex.bak] of its working directory; and with [DoNotSave] it
    changes no file at all. *)
Theorem run_touches_index_files_only cs ims fs errs ims' fs' :
  run cs ims fs = Returns errs ims' fs' ->
  (∀ p, p ≠ idx_file ims -> p ≠ bak_file ims -> fs' !! p = fs !! p)
  ∧ (DoNotSave (Config ims) = true -> fs' = fs).
Proof.
  induction cs as [|c cs IH] in ims, fs, errs |- *; simpl.
  - intros; by simplify_eq.
  - destruct (perform c ims fs) as [err ims1 fs1|] eqn:Hp; [|done].
    destruct (run cs ims1 fs1) as [errs1 ims2 fs2|] eqn:Hr; [|done].
    intros; simplify_eq.
    apply perform_frame in Hp as (Hc & Hno & Hfr).
    apply IH in Hr as (Hfr' & Hno').
    unfold idx_file, bak_file in *. rewrite Hc in *. split.
    + intros p H1 H2. by rewrite Hfr', Hfr.
    + intros Hd. by rewrite Hno', Hno.
Qed.

(** One call keeps the index sound. *)
Lemma perform_index_wf c ims fs err ims' fs' :
  is_Init c = false -> call_canonical c -> index_wf (tmap ims) ->
  perform c ims fs = Returns err ims' fs' -> index_wf (tmap ims').
Proof.
  intros Hi Hc Hwf.
  destruct c as [| |tagStr newSrc io|srcCond maxSize checkAll order]; [done|..]; simpl.
  - destruct (Shutdown ims fs) as [u ims1 fs1|] eqn:HS; [|done]. intros; simplify_eq.
    by apply Shutdown_inv in HS as (_ & _ & -> & _).
  - destruct (GetOrCreateJournal _ _ _ _ _) as [[j e] ims1 fs1|] eqn:HG; [|done].
    intros; simplify_eq. revert HG. unfold GetOrCreateJournal.
    destruct (lock ims); [done|]; simpl.
    destruct (done ims); [by intros; simplify_eq|].
    destruct (tmap ims !! tagStr) eqn:Hraw; [by intros; simplify_eq|].
    destruct (tag_Parse tagStr) as [tgs [perr|]] eqn:Hp; [by intros; simplify_eq|].
    destruct (Set_IsEmpty tgs) eqn:He; [by intros; simplify_eq|].
    destruct (tmap ims !! Set_Line tgs) eqn:Hline; [by intros; simplify_eq|].
    destruct (saveStateUnsafe _ _ _) as [[[e'|] ims2] fs2] eqn:Hsave;
      apply saveStateUnsafe_fields in Hsave as (Hm & _); intros; simplify_eq; simpl;
      rewrite Hm; simpl.
    + by rewrite delete_insert_id.
    + apply map_Forall_insert_2; [|done]. repeat split; simpl; eauto.
  - destruct (GetJournals _ _ _ _ _ _) as [[[res n] e] ims1 fs1|] eqn:HG; [|done].
    intros; simplify_eq. by apply GetJournals_frame in HG as (_ & _ & -> & _).
Qed.

(** X7.  Over every sequence of [Shutdown], [GetOrCreateJournal] and
    [GetJournals] calls whose tag strings are well behaved, a sound
    index stays sound: every key parses to the tag set of its entry, is
    the line of that tag set, and the tag set is not empty. *)
Theorem run_index_wf cs ims fs errs ims' fs' :
  Forall (λ c, is_Init c = false) cs -> Forall call_canonical cs ->
  index_wf (tmap ims) ->
  run cs ims fs = Returns errs ims' fs' -> index_wf (tmap ims').
Proof.
  intros Hi Hc. revert ims fs errs.
  induction cs as [|c cs IH]; intros ims fs errs Hwf; simpl.
  - intros; by simplify_eq.
  - apply Forall_cons in Hi as [Hi1 Hi]. apply Forall_cons in Hc as [Hc1 Hc].
    destruct (perform c ims fs) as [err ims1 fs1|] eqn:Hp; [|done].
    destruct (run cs ims1 fs1) as [errs1 ims2 fs2|] eqn:Hr; [|done].
    intros; simplify_eq.
    eapply IH; [done|done| |exact Hr].
    by eapply perform_index_wf.
Qed.

(** ** GetJournals: what the result holds *)

Lemma elem_of_range_of order m k td :
  (k, td) ∈ range_of order m ↔ k ∈ order ∧ m !! k = Some td.
Proof.
  unfold range_of. rewrite list_elem_of_omap. split.
  - intros (k' & Hin & Hk). destruct (m !! k') as [td'|] eqn:E; simpl in Hk; [|done].
    by simplify_eq.
  - intros [Hin Hk]. exists k. by rewrite Hk.
Qed.

(** Whatever is in the result was in it before or comes from a match
    of the loop. *)
Lemma scan_sound tef maxSize checkAll l res count line src :
  (scan tef maxSize checkAll l res count).1 !! line = Some src ->
  res !! line = Some src
  ∨ ∃ k td, (k, td) ∈ l ∧ tef (tags td) = true
            ∧ Set_Line (tags td) = line ∧ Src td = src.
Proof.
  induction l as [|[k td] l IH] in res, count |- *; simpl; [by left|].
  destruct (tef (tags td)) eqn:Ht.
  - destruct (Z.of_nat (size res) <? maxSize).
    + intros [Hr|(k' & td' & Hin & ?)]%IH.
      * apply lookup_insert_Some in Hr as [[<- <-]|[_ Hr]]; [|by left].
        right. exists k, td. repeat split; [left|done].
      * right. exists k', td'. split; [by right|done].
    + destruct checkAll; simpl; [|by left].
      intros [Hr|(k' & td' & Hin & ?)]%IH; [by left|].
      right. exists k', td'. split; [by right|done].
  - intros [Hr|(k' & td' & Hin & ?)]%IH; [by left|].
    right. exists k', td'. split; [by right|done].
Qed.

Lemma scan_count_nonneg tef maxSize checkAll l res count :
  count ≤ (scan tef maxSize checkAll l res count).2.
Proof.
  induction l as [|[k td] l IH] in res, count |- *; simpl; [lia|].
  destruct (tef (tags td)); [|apply IH].
  destruct (Z.of_nat (size res) <? maxSize); [etrans; [|apply IH]; lia|].
  destruct checkAll; simpl; [etrans; [|apply IH]|]; lia.
Qed.

(** X8.  A [GetJournals] that returns a result has changed nothing (the
    service, mutex and log included, and the files), its count is not
    negative, and every line of the result is the line of an entry of
    the index whose tag set satisfies the predicate, with the source of
    that entry. *)
Theorem GetJournals_sound srcCond maxSize checkAll order ims fs res count ims' fs' :
  GetJournals srcCond maxSize checkAll order ims fs = Returns (res, count, None) ims' fs' ->
  ims' = ims ∧ fs' = fs ∧ 0 ≤ count
  ∧ ∀ line src, res !! line = Some src ->
      ∃ k td, tmap ims !! k = Some td ∧ (BuildTagsExpFuncBySource srcCond).1 (tags td) = true
              ∧ Set_Line (tags td) = line ∧ Src td = src.
Proof.
  unfold GetJournals.
  destruct (BuildTagsExpFuncBySource srcCond) as [tef [e|]]; [done|].
  destruct (lock ims) eqn:Hl; [done|].
  change (done (set_lock true ims)) with (done ims).
  change (tmap (set_lock true ims)) with (tmap ims).
  destruct (done ims); [done|].
  destruct (scan tef maxSize checkAll _ ∅ 0) as [res0 count0] eqn:Hs.
  intros H; simplify_eq. rewrite unlock_lock by done.
  split; [done|]. split; [done|]. split.
  - change count with (res, count).2. rewrite <- Hs. apply scan_count_nonneg.
  - intros line src Hr. change res with (res, count).1 in Hr. rewrite <- Hs in Hr.
    apply scan_sound in Hr as [Hr|(k & td & Hin & Ht & Hline & Hsrc)]; [done|].
    apply elem_of_range_of in Hin as [_ Hk]. exists k, td. done.
Qed.

(** The sizes of the result and of the count, when the lines of the
    entries of the loop are pairwise distinct and none is in the result
    yet. *)
Lemma scan_sizes tef maxSize checkAll l res count :
  NoDup ((λ e : string * tagsDesc, Set_Line (tags e.2)) <$> l) ->
  (∀ e, e ∈ l -> res !! Set_Line (tags e.2) = None) ->
  Z.of_nat (size (scan tef maxSize checkAll l res count).1)
  = Z.of_nat (size res)
    + Z.min (Z.of_nat (length (filter (λ e : string * tagsDesc, tef (tags e.2) = true) l)))
            (Z.max 0 (maxSize - Z.of_nat (size res)))
  ∧ (scan tef maxSize checkAll l res count).2
    = count +
      (if checkAll
       then Z.of_nat (length (filter (λ e : string * tagsDesc, tef (tags e.2) = true) l))
       else Z.min (Z.of_nat (length (filter (λ e : string * tagsDesc, tef (tags e.2) = true) l)))
                  (Z.max 0 (maxSize - Z.of_nat (size res)) + 1)).
Proof.
  induction l as [|[k td] l IH] in res, count |- *; intros Hnd Hfresh.
  { simpl. destruct checkAll; lia. }
  rewrite fmap_cons in Hnd. apply NoDup_cons in Hnd as [Hhd Hnd]. cbn [snd] in Hhd.
  assert (∀ e, e ∈ l -> res !! Set_Line (tags e.2) = None) as Hfresh'
    by (intros e He; apply Hfresh; by right).
  simpl. rewrite filter_cons; cbn [snd].
  destruct (tef (tags td)) eqn:Ht; simpl; [|by apply IH].
  destruct (Z.ltb_spec (Z.of_nat (size res)) maxSize) as [Hlt|Hge].
  - assert (size (<[Set_Line (tags td) := Src td]> res) = S (size res)) as Hsz.
    { apply map_size_insert_None. apply (Hfresh (k, td)). left. }
    destruct (IH (<[Set_Line (tags td) := Src td]> res) (count + 1) Hnd) as [IH1 IH2].
    { intros e He. rewrite lookup_insert_ne; [by apply Hfresh'|].
      intros Heq. apply Hhd. rewrite Heq. apply list_elem_of_fmap. by exists e. }
    rewrite IH1, IH2, Hsz. destruct checkAll; lia.
  - destruct checkAll; simpl.
    + destruct (IH res (count + 1) Hnd Hfresh') as [IH1 IH2].
      rewrite IH1, IH2. lia.
    + lia.
Qed.

(** In a loop over an index whose keys are the lines of its entries,
    the lines met are pairwise distinct. *)
Lemma range_of_lines_NoDup order m :
  iteration_of order m ->
  (∀ k td, m !! k = Some td -> Set_Line (tags td) = k) ->
  NoDup ((λ e : string * tagsDesc, Set_Line (tags e.2)) <$> range_of order m).
Proof.
  intros Hit Hk. rewrite (range_of_iteration _ _ Hit).
  rewrite (Forall_fmap_ext_1 _ fst).
  - apply NoDup_fst_map_to_list.
  - apply Forall_forall. intros [k td] Hin. apply elem_of_map_to_list in Hin.
    simpl. by apply Hk.
Qed.

(** The result of a scan of the whole index: its sizes, and where its
    entries come from. *)
Lemma scan_whole_index srcCond tef maxSize checkAll order ims fs :
  lock ims = false -> done ims = false ->
  BuildTagsExpFuncBySource srcCond = (tef, None) ->
  iteration_of order (tmap ims) ->
  (∀ k td, tmap ims !! k = Some td -> Set_Line (tags td) = k) ->
  ∃ res count,
    GetJournals srcCond maxSize checkAll order ims fs = Returns (res, count, None) ims fs
    ∧ Z.of_nat (size res)
      = Z.min (Z.of_nat (size (matching tef (tmap ims)))) (Z.max 0 maxSize)
    ∧ count = (if checkAll then Z.of_nat (size (matching tef (tmap ims)))
               else Z.min (Z.of_nat (size (matching tef (tmap ims)))) (Z.max 0 maxSize + 1))
    ∧ ∀ line src, res !! line = Some src ->
        ∃ k td, tmap ims !! k = Some td ∧ tef (tags td) = true
                ∧ Set_Line (tags td) = line ∧ Src td = src.
Proof.
  intros Hl Hd Hc Hit Hk. unfold GetJournals. rewrite Hc, Hl.
  change (done (set_lock true ims)) with (done ims).
  change (tmap (set_lock true ims)) with (tmap ims).
  rewrite Hd, unlock_lock by done.
  pose proof (scan_sizes tef maxSize checkAll (range_of order (tmap ims)) ∅ 0
                (range_of_lines_NoDup _ _ Hit Hk)) as [H1 H2].
  { intros e _. apply lookup_empty. }
  pose proof (λ line src, scan_sound tef maxSize checkAll
                (range_of order (tmap ims)) ∅ 0 line src) as Hsound.
  destruct (scan tef maxSize checkAll _ ∅ 0) as [res count].
  exists res, count. split; [done|]. simpl in H1, H2, Hsound.
  rewrite map_size_empty in H1, H2.
  assert (length (filter (λ e : string * tagsDesc, tef (tags e.2) = true)
                    (range_of order (tmap ims)))
          = size (matching tef (tmap ims))) as Hlen.
  { by rewrite size_matching, (range_of_iteration _ _ Hit). }
  rewrite Hlen in H1, H2.
  split; [lia|].
  split; [destruct checkAll; lia|].
  intros line src Hr.
  apply Hsound in Hr as [Hr|(k & td & Hin & Ht & Hline & Hsrc)]; [done|].
  apply elem_of_range_of in Hin as [_ Hkk]. by exists k, td.
Qed.

(** X9.  For an index whose keys are the lines of its entries, and any
    order of the loop: the result has [min n (max 0 maxSize)] entries,
    where [n] is the number of entries that satisfy the predicate; the
    count is [n] with [checkAll], and [min n (max 0 maxSize + 1)]
    without: the capped scan counts one match more than it returns. *)
Theorem GetJournals_sizes srcCond tef maxSize checkAll order ims fs :
  lock ims = false -> done ims = false ->
  BuildTagsExpFuncBySource srcCond = (tef, None) ->
  iteration_of order (tmap ims) ->
  (∀ k td, tmap ims !! k = Some td -> Set_Line (tags td) = k) ->
  ∃ res count,
    GetJournals srcCond maxSize checkAll order ims fs = Returns (res, count, None) ims fs
    ∧ Z.of_nat (size res)
      = Z.min (Z.of_nat (size (matching tef (tmap ims)))) (Z.max 0 maxSize)
    ∧ count = if checkAll then Z.of_nat (size (matching tef (tmap ims)))
              else Z.min (Z.of_nat (size (matching tef (tmap ims)))) (Z.max 0 maxSize + 1).
Proof.
  intros Hl Hd Hc Hit Hk.
  destruct (scan_whole_index srcCond tef maxSize checkAll order ims fs Hl Hd Hc Hit Hk)
    as (res & count & HG & Hsz & Hcount & _).
  by exists res, count.
Qed.

(** X10.  When [maxSize] is at least the number of entries that satisfy
    the predicate, [GetJournals] returns exactly these entries, each
    line with its source, and their number, in both modes and for any
    order of the loop (index keyed by the lines of its entries). *)
Theorem GetJournals_complete srcCond tef maxSize checkAll order ims fs :
  lock ims = false -> done ims = false ->
  BuildTagsExpFuncBySource srcCond = (tef, None) ->
  iteration_of order (tmap ims) ->
  (∀ k td, tmap ims !! k = Some td -> Set_Line (tags td) = k) ->
  Z.of_nat (size (matching tef (tmap ims))) ≤ maxSize ->
  GetJournals srcCond maxSize checkAll order ims fs
  = Returns (document (matching tef (tmap ims)),
             Z.of_nat (size (matching tef (tmap ims))), None) ims fs.
Proof.
  intros Hl Hd Hc Hit Hk Hroom.
  destruct (scan_whole_index srcCond tef maxSize checkAll order ims fs Hl Hd Hc Hit Hk)
    as (res & count & HG & Hsz & Hcount & Hsound).
  rewrite HG. do 3 f_equal.
  - apply map_subseteq_size_eq.
    + apply map_subseteq_spec. intros line src Hr.
      destruct (Hsound line src Hr) as (k & td & Hkk & Ht & Hline & Hsrc).
      unfold document, matching. rewrite lookup_fmap.
      rewrite <- Hline, (Hk _ _ Hkk).
      erewrite (proj2 (map_lookup_filter_Some _ _ k td)); [by rewrite <- Hsrc|done].
    + unfold document. rewrite map_size_fmap. lia.
  - rewrite Hcount. destruct checkAll; lia.
Qed.

(** ** Loading *)

(** A loop of [loadState] that ends without error has met no key that
    fails to parse. *)
Lemma reparse_None order ims ims' k :
  reparse order ims = (None, ims') ->
  k ∈ order -> is_Some (tmap ims !! k) -> (tag_Parse k).2 = None.
Proof.
  intros Hr Hin Hk. destruct ((tag_Parse k).2) as [e|] eqn:He; [|done].
  destruct (reparse_error order ims k Hin Hk) as [e' He']; [by rewrite He|].
  rewrite Hr in He'. done.
Qed.

(** Loading a file that holds the document of an index [m] whose keys
    parse to the tag sets of their entries gives [m], when the service
    has no keys outside [m]. *)
Lemma loadState_of_saved order ims0 fs data m :
  fs !! idx_file ims0 = Some data ->
  json_Unmarshal data = (document m, None) ->
  (∀ k td, m !! k = Some td -> tag_Parse k = (tags td, None)) ->
  dom (tmap ims0) ⊆ dom m ->
  iteration_of order m ->
  ∃ ims2, loadState no_faults order ims0 fs = (None, ims2) ∧ tmap ims2 = m.
Proof.
  intros Hfile Hu Hparse Hdom Hit. unfold idx_file in Hfile.
  unfold loadState, stat_IsNotExist, ioutil_ReadFile; simpl.
  rewrite Hfile, bool_decide_eq_false_2 by done. rewrite Hu.
  set (st := set_tmap _ _).
  assert (∀ k, tmap st !! k
               = (λ td, {| tags := tag_zero; Src := Src td |}) <$> m !! k) as Hst.
  { intros k. subst st; simpl. unfold unmarshal_into, document.
    rewrite lookup_union, !lookup_fmap.
    destruct (m !! k) as [td|] eqn:Hk; simpl.
    - by destruct (tmap ims0 !! k).
    - apply not_elem_of_dom in Hk.
      assert (tmap ims0 !! k = None) as -> by (apply not_elem_of_dom; set_solver).
      done. }
  destruct (reparse_ok order st) as (ims2 & Hr & _ & _ & _ & _ & Hlk).
  { intros k _ Hsome. rewrite Hst in Hsome.
    destruct (m !! k) as [td|] eqn:Hk; [|by destruct Hsome].
    by rewrite (Hparse _ _ Hk). }
  rewrite Hr. exists ims2. split; [done|].
  apply map_eq. intros k. rewrite Hlk, Hst.
  destruct (m !! k) as [td|] eqn:Hk.
  - rewrite decide_True by (apply (iteration_of_elem _ _ k Hit); eauto).
    simpl. rewrite (Hparse _ _ Hk). by destruct td.
  - by case_decide.
Qed.

(** X11.  After a [loadState] that read and decoded the file and
    returned no error, the index has exactly the keys of the document
    and those it had before; every key parses without error, its entry
    has the tag set the key parses to, and the source of the document,
    or, for a key the document does not have, the source it had. *)
Theorem loadState_loaded io order ims fs data doc ims' :
  stat_IsNotExist io (idx_file ims) fs = false ->
  ioutil_ReadFile io (idx_file ims) fs = Some data ->
  json_Unmarshal data = (doc, None) ->
  iteration_of order (unmarshal_into doc (tmap ims)) ->
  loadState io order ims fs = (None, ims') ->
  ∀ k, tmap ims' !! k
       = (λ src, {| tags := (tag_Parse k).1; Src := src |})
           <$> (doc !! k ∪ (Src <$> tmap ims !! k))
       ∧ (is_Some (tmap ims' !! k) -> (tag_Parse k).2 = None).
Proof.
  unfold idx_file, loadState. intros -> -> -> Hit.
  set (st := set_tmap _ _).
  destruct (reparse order st) as [[e|] ims2] eqn:Hr; [done|].
  intros H; simplify_eq. intros k.
  destruct (reparse_ok order st) as (ims2 & Hr' & _ & _ & _ & _ & Hlk).
  { intros k' Hin Hsome. by eapply reparse_None. }
  rewrite Hr in Hr'. simplify_eq.
  assert (tmap st !! k
          = ((λ src, {| tags := tag_zero; Src := src |}) <$> doc !! k) ∪ tmap ims !! k)
    as Hst.
  { subst st; simpl. unfold unmarshal_into. by rewrite lookup_union, lookup_fmap. }
  rewrite Hlk. destruct (decide (k ∈ order)) as [Hin|Hnin].
  - split.
    + rewrite Hst. destruct (doc !! k); simpl; [by destruct (tmap ims !! k)|].
      by destruct (tmap ims !! k).
    + intros Hs. eapply reparse_None; [done..|].
      destruct (tmap st !! k); [done|]. by destruct Hs.
  - assert (tmap st !! k = None) as Hn.
    { destruct (tmap st !! k) eqn:E; [|done]. exfalso. apply Hnin.
      apply (iteration_of_elem _ _ k Hit). subst st. simpl in E. eauto. }
    rewrite Hn in Hst |- *. split; [|by intros []].
    destruct (doc !! k); simpl in Hst; [by destruct (tmap ims !! k)|].
    by destruct (tmap ims !! k).
Qed.

(** ** Saving, then loading again *)

(** A save that returns no error, in a service that persists, has
    written the encoding of the index to [tindex.dat]. *)
Lemma saveStateUnsafe_success io ims fs ims' fs' :
  saveStateUnsafe io ims fs = (None, ims', fs') ->
  DoNotSave (Config ims) = false -> mirrored ims fs'.
Proof.
  unfold mirrored, idx_file, saveStateUnsafe, ioutil_WriteFile; simpl.
  intros H Hs. rewrite Hs in H.
  destruct (if negb _ then _ else _) as [[] fs1]; [done|].
  destruct (json_Marshal _) as [data|]; [|done].
  destruct (writeErr io) as [[]|]; simplify_eq.
  exists data. split; [done|]. apply lookup_insert_eq.
Qed.

Lemma saveStateUnsafe_error_kind io ims fs e ims' fs' :
  saveStateUnsafe io ims fs = (Some e, ims', fs') ->
  (∃ fn bFn, e = ErrRename fn bFn) ∨ e = ErrMarshal ∨ ∃ fn, e = ErrWrite fn.
Proof.
  unfold saveStateUnsafe; intros H.
  repeat case_match; simplify_eq; eauto.
Qed.

(** X12.  In a service that persists, a [GetOrCreateJournal] that
    returns a source leaves [tindex.dat] holding the encoding of the
    index, if it found it so: calls that succeed keep the file in step
    with memory. *)
Theorem GetOrCreateJournal_keeps_mirror tagStr newSrc io ims fs j ims' fs' :
  DoNotSave (Config ims) = false -> mirrored ims fs ->
  GetOrCreateJournal tagStr newSrc io ims fs = Returns (j, None) ims' fs' ->
  mirrored ims' fs'.
Proof.
  intros Hs Hmir. unfold GetOrCreateJournal; intros H.
  destruct (lock ims) eqn:Hl; [done|].
  change (done (set_lock true ims)) with (done ims) in H.
  change (tmap (set_lock true ims)) with (tmap ims) in H.
  destruct (done ims); [by simplify_eq|].
  destruct (tmap ims !! tagStr) eqn:Hraw.
  { simplify_eq. by rewrite unlock_lock. }
  destruct (tag_Parse tagStr) as [tgs [perr|]]; [by simplify_eq|].
  destruct (Set_IsEmpty tgs); [by simplify_eq|].
  destruct (tmap ims !! Set_Line tgs) eqn:Hline.
  { simplify_eq. by rewrite unlock_lock. }
  destruct (saveStateUnsafe _ _ _) as [[[e'|] ims1] fs1] eqn:Hsave; [by simplify_eq|].
  simplify_eq.
  pose proof (saveStateUnsafe_fields _ _ _ _ _ _ Hsave) as (Hm & _ & _ & Hc).
  apply saveStateUnsafe_success in Hsave; [|done].
  destruct Hsave as (data & Hmar & Hfile). exists data.
  unfold idx_file in *. simpl in *. by rewrite Hm, Hc.
Qed.

(** X13.  A new entry survives a restart: after a call that created an
    entry and saved it, a new service with the same configuration that
    loads the files gets the index of the running one.  Asked: the old
    entries and the line of the new tag set parse to their tag sets, and
    the codec gives back the document it encoded. *)
Theorem created_entry_survives_restart tagStr tgs newSrc ims fs data order :
  lock ims = false -> done ims = false -> DoNotSave (Config ims) = false ->
  tmap ims !! tagStr = None ->
  tag_Parse tagStr = (tgs, None) -> Set_IsEmpty tgs = false ->
  tmap ims !! Set_Line tgs = None ->
  (∀ k td, tmap ims !! k = Some td -> tag_Parse k = (tags td, None)) ->
  tag_Parse (Set_Line tgs) = (tgs, None) ->
  json_Marshal
    (document (<[Set_Line tgs := {| tags := tgs; Src := newSrc |}]> (tmap ims)))
    = Some data ->
  json_Unmarshal data
    = (document (<[Set_Line tgs := {| tags := tgs; Src := newSrc |}]> (tmap ims)), None) ->
  iteration_of order (<[Set_Line tgs := {| tags := tgs; Src := newSrc |}]> (tmap ims)) ->
  ∃ ims' fs' ims2,
    GetOrCreateJournal tagStr newSrc no_faults ims fs = Returns (newSrc, None) ims' fs'
    ∧ loadState no_faults order (NewInmemServiceWithConfig (Config ims)) fs' = (None, ims2)
    ∧ tmap ims2 = tmap ims'.
Proof.
  intros Hl Hd Hs Hraw Hp He Hline Hold Hcanon Hm Hu Hit.
  destruct (GetOrCreateJournal_new_entry tagStr tgs newSrc ims fs data)
    as (ims' & fs' & HG & Hm' & _ & Hfile); try done.
  assert (∀ k td,
            <[Set_Line tgs := {| tags := tgs; Src := newSrc |}]> (tmap ims) !! k = Some td ->
            tag_Parse k = (tags td, None)) as Hparse.
  { intros k td [[<- <-]|[_ Hk]]%lookup_insert_Some; [done|by apply Hold]. }
  assert (dom (tmap (NewInmemServiceWithConfig (Config ims)))
          ⊆ dom (<[Set_Line tgs := {| tags := tgs; Src := newSrc |}]> (tmap ims))) as Hdom.
  { change (tmap (NewInmemServiceWithConfig (Config ims))) with (∅ : gmap string tagsDesc).
    rewrite dom_empty_L. apply empty_subseteq. }
  destruct (loadState_of_saved order (NewInmemServiceWithConfig (Config ims)) fs' data
              (<[Set_Line tgs := {| tags := tgs; Src := newSrc |}]> (tmap ims))
              Hfile Hu Hparse Hdom Hit)
    as (ims2 & HL & Hm2).
  exists ims', fs', ims2. by rewrite Hm'.
Qed.

(** X14.  A write that fails is not undone on the files.  When
    [tindex.dat] exists and the write of a creating call fails leaving
    no file, the call returns the write error and the index in memory is
    the one it found; but [tindex.dat] is gone, its previous content is
    in [tindex.bak] only, and a new service that loads the files gets an
    empty index: [loadState] never reads the backup. *)
Theorem failed_write_loses_primary tagStr tgs newSrc io ims fs old data :
  lock ims = false -> done ims = false -> DoNotSave (Config ims) = false ->
  tmap ims !! tagStr = None ->
  tag_Parse tagStr = (tgs, None) -> Set_IsEmpty tgs = false ->
  tmap ims !! Set_Line tgs = None ->
  fs !! idx_file ims = Some old ->
  renameErr io = false -> writeErr io = Some None ->
  json_Marshal
    (document (<[Set_Line tgs := {| tags := tgs; Src := newSrc |}]> (tmap ims)))
    = Some data ->
  ∃ ims' fs',
    GetOrCreateJournal tagStr newSrc io ims fs
    = Returns ("", Some (ErrWrite (idx_file ims))) ims' fs'
    ∧ tmap ims' = tmap ims
    ∧ fs' !! idx_file ims = None
    ∧ fs' !! bak_file ims = Some old
    ∧ ∀ order, ∃ ims2,
        loadState no_faults order (NewInmemServiceWithConfig (Config ims)) fs' = (None, ims2)
        ∧ tmap ims2 = ∅.
Proof.
  intros Hl Hd Hs Hraw Hp He Hline Hold Hr Hw Hm.
  destruct (saveStateUnsafe_write_fails
              (set_tmap (<[Set_Line tgs := {| tags := tgs; Src := newSrc |}]> (tmap ims))
                 (set_lock true ims)) fs io old data None)
    as (ims1 & fs1 & Hsave & Hidx & Hbak & Hm1); try done.
  destruct (GetOrCreateJournal_persist_failure tagStr newSrc io ims fs tgs
              (ErrWrite (idx_file ims)) ims1 fs1)
    as (ims' & HG & Hm' & _); try done.
  exists ims', fs1. split; [done|]. split; [done|]. split; [done|]. split; [done|].
  intros order. unfold loadState, stat_IsNotExist; simpl.
  unfold idx_file in Hidx; simpl in Hidx. rewrite Hidx. simpl. eauto.
Qed.

(** ** Init *)

(** A journal listed twice fails the check: the first occurrence takes
    its source out of [km]. *)
Lemma reconcile_dup knwnJrnls km fail ims :
  ¬ NoDup knwnJrnls -> (reconcile knwnJrnls km fail ims).1.2 = true.
Proof.
  induction knwnJrnls as [|x rest IH] in km, fail, ims |- *; intros Hnd.
  { destruct Hnd. constructor. }
  simpl. destruct (decide (x ∈ rest)) as [Hin|Hnin].
  - case_decide.
    + apply reconcile_orphan with (src := x); [done|]. set_solver.
    + apply reconcile_fail_stays.
  - assert (¬ NoDup rest) as Hnd' by (intros ?; apply Hnd; by constructor).
    case_decide; by apply IH.
Qed.

Lemma reconcile_verdict knwnJrnls km ims :
  (reconcile knwnJrnls km false ims).1.2 = true
  ↔ ¬ NoDup knwnJrnls ∨ ∃ src, src ∈ knwnJrnls ∧ src ∉ km.
Proof.
  split.
  - intros Hv. destruct (decide (NoDup knwnJrnls)) as [Hnd|]; [|by left]. right.
    destruct (decide (Forall (λ src, src ∈ km) knwnJrnls)) as [Hall|Hex].
    + rewrite reconcile_pass in Hv; [done|done|].
      intros src. by apply (proj1 (Forall_forall _ _) Hall).
    + apply not_Forall_Exists in Hex; [|apply _].
      apply Exists_exists in Hex as (src & Hin & Hno). eauto.
  - intros [Hnd|(src & Hin & Hno)]; [by apply reconcile_dup|by eapply reconcile_orphan].
Qed.

(** [Init] after a load without error: the verdict of the loop decides
    between the inconsistency error and the final save. *)
Lemma Init_after_load ioL ioS order knwnJrnls ims fs ims1 :
  loadState ioL order (set_done false (log Info "Initializing..." ims)) fs
    = (None, ims1) ->
  ((reconcile knwnJrnls (indexed (tmap ims1)) false
      (log Info "Checking the index and data consistency" ims1)).1.2 = true
   ∧ ∃ ims', Init ioL ioS order knwnJrnls ims fs
             = (Some (ErrInconsistent (length knwnJrnls) (size (tmap ims1))), ims', fs)
             ∧ tmap ims' = tmap ims1)
  ∨ ((reconcile knwnJrnls (indexed (tmap ims1)) false
        (log Info "Checking the index and data consistency" ims1)).1.2 = false
     ∧ ∃ ims2, Init ioL ioS order knwnJrnls ims fs = saveStateUnsafe ioS ims2 fs
               ∧ tmap ims2 = tmap ims1 ∧ Config ims2 = Config ims).
Proof.
  intros Hload. unfold Init, checkConsistency. rewrite Hload.
  pose proof (loadState_fields ioL order
                (set_done false (log Info "Initializing..." ims)) fs) as (Hc & _).
  rewrite Hload in Hc. simpl in Hc.
  set (st := log Info "Checking the index and data consistency" ims1).
  change (tmap st) with (tmap ims1).
  pose proof (reconcile_fields knwnJrnls (indexed (tmap ims1)) false st) as (Hm & Hc2 & _).
  destruct (reconcile knwnJrnls (indexed (tmap ims1)) false st) as [[km [|]] ims2];
    simpl in Hm, Hc2; [left|right]; (split; [done|]).
  - destruct (0 <? size km)%nat; simpl; rewrite Hm; eauto.
  - eexists. split; [reflexivity|].
    destruct (0 <? size km)%nat; simpl; rewrite Hm, Hc2; done.
Qed.

(** X15.  After a load without error, [Init] returns the inconsistency
    error exactly when some listed journal has no entry in the index or
    some journal is listed twice: a repetition in the listing of the
    controller fails [Init] even if every journal is indexed. *)
Theorem Init_inconsistent_iff ioL ioS order knwnJrnls ims fs ims1 :
  loadState ioL order (set_done false (log Info "Initializing..." ims)) fs
    = (None, ims1) ->
  (Init ioL ioS order knwnJrnls ims fs).1.1
    = Some (ErrInconsistent (length knwnJrnls) (size (tmap ims1)))
  ↔ ¬ NoDup knwnJrnls ∨ ∃ src, src ∈ knwnJrnls ∧ src ∉ indexed (tmap ims1).
Proof.
  intros Hload. rewrite <- (reconcile_verdict knwnJrnls (indexed (tmap ims1))
    (log Info "Checking the index and data consistency" ims1)).
  destruct (Init_after_load ioL ioS order knwnJrnls ims fs ims1 Hload)
    as [(Hv & ims' & -> & _)|(Hv & ims2 & -> & _)]; rewrite Hv; simpl; [done|].
  split; [|done].
  destruct (saveStateUnsafe ioS ims2 fs) as [[[e|] ims3] fs3] eqn:Hs; simpl; [|done].
  intros; simplify_eq.
  apply saveStateUnsafe_error_kind in Hs as [(? & ? & ?)|[?|(? & ?)]]; done.
Qed.

(** X16.  An [Init] that returns no error guarantees: no journal of the
    listing is listed twice, every one of them is the source of an entry
    of the index, the service is open, and, when it persists,
    [tindex.dat] has the encoding of the index. *)
Theorem Init_success ioL ioS order knwnJrnls ims fs ims' fs' :
  Init ioL ioS order knwnJrnls ims fs = (None, ims', fs') ->
  NoDup knwnJrnls
  ∧ (∀ src, src ∈ knwnJrnls -> src ∈ indexed (tmap ims'))
  ∧ done ims' = false
  ∧ (DoNotSave (Config ims) = false -> mirrored ims' fs').
Proof.
  intros HI.
  pose proof (Init_frame _ _ _ _ _ _ _ _ _ HI) as (Hc' & Hd' & _).
  destruct (loadState ioL order (set_done false (log Info "Initializing..." ims)) fs)
    as [[e|] ims1] eqn:Hload.
  { unfold Init, checkConsistency in HI. rewrite Hload in HI. done. }
  destruct (Init_after_load ioL ioS order knwnJrnls ims fs ims1 Hload)
    as [(Hv & ims0 & HI0 & _)|(Hv & ims2 & HI2 & Hm2 & Hc2)].
  { rewrite HI0 in HI. done. }
  rewrite HI2 in HI.
  pose proof (saveStateUnsafe_fields _ _ _ _ _ _ HI) as (Hm & _).
  assert (¬ (¬ NoDup knwnJrnls ∨ ∃ src, src ∈ knwnJrnls ∧ src ∉ indexed (tmap ims1)))
    as Hok.
  { rewrite <- (reconcile_verdict knwnJrnls (indexed (tmap ims1))
      (log Info "Checking the index and data consistency" ims1)). by rewrite Hv. }
  split; [|split; [|split; [done|]]].
  - destruct (decide (NoDup knwnJrnls)); [done|]. destruct Hok. by left.
  - intros src Hin. rewrite Hm, Hm2.
    destruct (decide (src ∈ indexed (tmap ims1))); [done|]. destruct Hok. eauto.
  - intros Hs. apply saveStateUnsafe_success in HI as (data & Hmar & Hfile);
      [|by rewrite Hc2].
    exists data. unfold idx_file in *. rewrite Hm, Hc'. by rewrite Hc2 in Hfile.
Qed.

(** X17.  A first run (no [tindex.dat], empty index) against a
    controller that has journals cannot start: [Init] returns the
    inconsistency error with [0] records, and writes nothing.  With no
    journal, [Init] returns what the save of the empty index returns. *)
Theorem Init_first_run ioL ioS order knwnJrnls ims fs :
  stat_IsNotExist ioL (idx_file ims) fs = true -> tmap ims = ∅ ->
  (knwnJrnls ≠ [] ->
   ∃ ims', Init ioL ioS order knwnJrnls ims fs
           = (Some (ErrInconsistent (length knwnJrnls) 0), ims', fs))
  ∧ (knwnJrnls = [] ->
     ∃ ims2, Init ioL ioS order knwnJrnls ims fs = saveStateUnsafe ioS ims2 fs
             ∧ tmap ims2 = ∅ ∧ Config ims2 = Config ims).
Proof.
  intros Hne Hempty.
  assert (∃ ims1, loadState ioL order (set_done false (log Info "Initializing..." ims)) fs
                  = (None, ims1) ∧ tmap ims1 = ∅) as (ims1 & Hload & Hm1).
  { unfold loadState. unfold idx_file in Hne. simpl. rewrite Hne. eauto. }
  assert (indexed (tmap ims1) = ∅) as Hidx.
  { rewrite Hm1. unfold indexed. by rewrite map_to_list_empty. }
  destruct (Init_after_load ioL ioS order knwnJrnls ims fs ims1 Hload)
    as [(Hv & ims' & HI & _)|(Hv & ims2 & HI & Hm2 & Hc2)].
  - split.
    + intros _. exists ims'. rewrite HI, Hm1. by rewrite map_size_empty.
    + intros ->. simpl in Hv. done.
  - split.
    + intros Hnil. destruct knwnJrnls as [|src rest]; [done|].
      rewrite (reconcile_orphan (src :: rest) _ false _ src) in Hv; [done|by left|].
      rewrite Hidx. apply not_elem_of_empty.
    + intros _. exists ims2. by rewrite <- Hm1.
Qed.

(** X18.  [Init] does not close the service when it fails: whatever it
    returns, [done] is false and the mutex is as it was, so a following
    [GetOrCreateJournal] is not refused with the shut-down error. *)
Theorem Init_leaves_service_open ioL ioS order knwnJrnls ims fs e ims' fs' :
  Init ioL ioS order knwnJrnls ims fs = (e, ims', fs') ->
  done ims' = false ∧ lock ims' = lock ims
  ∧ ∀ tagStr newSrc io r ims2 fs2,
      GetOrCreateJournal tagStr newSrc io ims' fs' = Returns r ims2 fs2 ->
      r.2 ≠ Some ErrShutDown.
Proof.
  intros (_ & Hd & Hl & _)%Init_frame. split; [done|]. split; [done|].
  intros tagStr newSrc io r ims2 fs2. unfold GetOrCreateJournal.
  destruct (lock ims'); [done|].
  change (done (set_lock true ims')) with (done ims'). rewrite Hd.
  destruct (tmap _ !! tagStr); [by intros; simplify_eq|].
  destruct (tag_Parse tagStr) as [tgs [perr|]]; [by intros; simplify_eq|].
  destruct (Set_IsEmpty tgs); [by intros; simplify_eq|].
  destruct (tmap _ !! Set_Line tgs); [by intros; simplify_eq|].
  destruct (saveStateUnsafe _ _ _) as [[[e'|] ims3] fs3] eqn:Hsave;
    [|by intros; simplify_eq].
  intros; simplify_eq. simpl.
  apply saveStateUnsafe_error_kind in Hsave as [(? & ? & ?)|[?|(? & ?)]]; by simplify_eq.
Qed.

End Properties.

(** * Properties of the configuration of the forwarder *)

Section ForwarderProperties.
Import Forwarder.
Context `{SP : SinkPkg} `{CP : CheckPkg}.

Local Open Scope list_scope.

Implicit Types (c nc : Config) (w : WorkerConfig).

Lemma StreamConfig_Check_None (sc : StreamConfig) :
  StreamConfig_Check sc = None
  ↔ lql_ParseSource (Source sc) = None ∧ lql_ParseExpr (Filter sc) = None
    ∧ (Filter sc ≠ "" -> syntax_Parse (Filter sc) = None).
Proof.
  unfold StreamConfig_Check.
  destruct (lql_ParseSource _); [naive_solver|].
  destruct (lql_ParseExpr _); [naive_solver|].
  case_decide; [|naive_solver].
  destruct (syntax_Parse _); naive_solver.
Qed.

Lemma WorkerConfig_Check_None w : WorkerConfig_Check w = None ↔ valid_worker w.
Proof.
  unfold WorkerConfig_Check, valid_worker.
  case_decide; [naive_solver|].
  destruct (Stream w) as [st|]; [|naive_solver].
  destruct (Sink w) as [sk|]; [|naive_solver].
  pose proof (StreamConfig_Check_None st) as Hst.
  destruct (StreamConfig_Check st); [naive_solver|].
  destruct (sink_Check sk) eqn:Hsk; naive_solver.
Qed.

Lemma check_workers_ok (ws : list (option WorkerConfig)) (wNames : gset string) :
  check_workers ws wNames = Ok None
  ↔ ∃ l, ws = Some <$> l ∧ NoDup (Name <$> l)
         ∧ (∀ w, w ∈ l -> Name w ∉ wNames) ∧ Forall valid_worker l.
Proof.
  induction ws as [|[w|] rest IH] in wNames |- *; simpl.
  - split; [|done]. intros _. exists []. repeat split; [constructor|set_solver|constructor].
  - case_decide as Hseen.
    { split; [done|]. intros ([|w' l] & Heq & _ & Hfresh & _); simplify_eq/=.
      destruct (Hfresh w'); [left|done]. }
    pose proof (WorkerConfig_Check_None w) as Hw.
    destruct (WorkerConfig_Check w) as [e|].
    { split; [done|]. intros ([|w' l] & Heq & _ & _ & Hv); simplify_eq/=.
      apply Forall_cons in Hv as [Hv _]. apply Hw in Hv. done. }
    rewrite IH. split.
    + intros (l & -> & Hnd & Hfresh & Hv). exists (w :: l). split; [done|]. split; [|split].
      * simpl. apply NoDup_cons. split; [|done].
        intros (w' & Hn & Hin)%list_elem_of_fmap. apply (Hfresh w' Hin). set_solver.
      * intros w' [->|Hin]%elem_of_cons; [done|]. specialize (Hfresh w' Hin). set_solver.
      * constructor; [by apply Hw|done].
    + intros ([|w' l] & Heq & Hnd & Hfresh & Hv); simplify_eq/=.
      apply NoDup_cons in Hnd as [Hhd Hnd]. apply Forall_cons in Hv as [_ Hv].
      exists l. split; [done|]. split; [done|]. split; [|done].
      intros w'' Hin. apply not_elem_of_union. split.
      * intros Heq%elem_of_singleton. apply Hhd. rewrite <- Heq.
        apply list_elem_of_fmap. by exists w''.
      * apply Hfresh. by right.
  - split; [done|]. intros ([|w' l] & Heq & _); simplify_eq/=.
Qed.

Lemma Check_ok c : Check c = Ok None ↔ valid c.
Proof.
  unfold Check, valid.
  case_decide; [split; [done|lia]|].
  case_decide; [split; [done|lia]|].
  rewrite check_workers_ok. split.
  - intros (l & Hl & Hnd & _ & Hv). split; [lia|]. split; [lia|]. by exists l.
  - intros (_ & _ & l & Hl & Hnd & Hv). exists l.
    split; [done|]. split; [done|]. split; [|done]. intros w _. apply not_elem_of_empty.
Qed.

(** X19.  [Config.Check] returns no error exactly when both intervals
    are positive, no worker is nil, no two workers have the same name,
    and every worker has a name that is not blank, a stream whose source
    and filter parse (the filter also as a regular expression unless it
    is empty) and a sink that passes its own check. *)
Theorem Check_accepts_iff c : Check c = Ok None ↔ valid c.
Proof. apply Check_ok. Qed.

Lemma Reload_cases c answer c' b e :
  Reload c answer = Ok (c', b, e) ->
  (b = false ∧ c' = c)
  ∨ (b = true ∧ e = None ∧ is_Some (ReloadFn c)
     ∧ ∃ nc, answer = (Some nc, None) ∧ Equals c (Some nc) = false
             ∧ Check nc = Ok None ∧ c' = Apply c (Some nc)).
Proof.
  unfold Reload. destruct (ReloadFn c) as [f|] eqn:Hf; [|intros; simplify_eq; by left].
  destruct answer as [nc err]. destruct (Equals c nc) eqn:HE; simpl.
  { intros; simplify_eq. by left. }
  destruct err as [err|]; [intros; simplify_eq; by left|].
  destruct nc as [nc|]; [|done].
  destruct (Check nc) as [[err|]|] eqn:HC; [intros; simplify_eq; by left| |done].
  intros; simplify_eq. right. repeat split; eauto.
Qed.

(** X20.  [Reload] changes the receiver only when it returns true, and
    then it has applied a configuration that [ReloadFn] returned without
    error, that differs from the receiver and that passes [Check]; when
    it returns false the receiver is as it was. *)
Theorem Reload_changes_only_when_true c answer c' b e :
  Reload c answer = Ok (c', b, e) ->
  (b = false -> c' = c)
  ∧ (b = true ->
     e = None ∧ is_Some (ReloadFn c)
     ∧ ∃ nc, answer = (Some nc, None) ∧ Equals c (Some nc) = false
             ∧ valid nc ∧ c' = Apply c (Some nc)).
Proof.
  intros [[-> ->]|(-> & -> & Hf & nc & -> & HE & HC & ->)]%Reload_cases.
  - split; [done|]. intros; done.
  - split; [done|]. intros _. split; [done|]. split; [done|].
    exists nc. split; [done|]. split; [done|]. split; [by apply Check_ok|done].
Qed.

Lemma valid_nonzero nc :
  valid nc -> StateStoreIntervalSec nc ≠ 0 ∧ ConfigReloadIntervalSec nc ≠ 0.
Proof. intros (? & ? & _). lia. Qed.

Lemma DeepEqual_len a b : reflect_DeepEqual a b = true -> len a = len b.
Proof.
  destruct a as [l1|], b as [l2|]; simpl; try done.
  revert l2. induction l1 as [|x l1 IH]; intros [|y l2]; simpl; try done.
  intros [_ H]%andb_prop. by rewrite (IH l2 H).
Qed.

Lemma Config_ext c1 c2 :
  Workers c1 = Workers c2 ->
  StateStoreIntervalSec c1 = StateStoreIntervalSec c2 ->
  ConfigReloadIntervalSec c1 = ConfigReloadIntervalSec c2 ->
  ReloadFn c1 = ReloadFn c2 -> c1 = c2.
Proof. destruct c1, c2; simpl; intros; by subst. Qed.

(** What [Apply] of a valid configuration gives. *)
Lemma Apply_valid_fields c nc :
  valid nc ->
  StateStoreIntervalSec (Apply c (Some nc)) = StateStoreIntervalSec nc
  ∧ ConfigReloadIntervalSec (Apply c (Some nc)) = ConfigReloadIntervalSec nc
  ∧ Workers (Apply c (Some nc))
    = (if decide (len (Workers nc) ≠ 0%nat) then deepcopy_Copy (Workers nc) else Workers c)
  ∧ ReloadFn (Apply c (Some nc))
    = (match ReloadFn nc with Some f => Some f | None => ReloadFn c end).
Proof.
  intros [H1 H2]%valid_nonzero. unfold Apply.
  destruct (decide (StateStoreIntervalSec nc ≠ 0)); [|done].
  destruct (decide (ConfigReloadIntervalSec nc ≠ 0)); [|done].
  destruct (decide (len (Workers nc) ≠ 0%nat)), (ReloadFn nc); done.
Qed.

Lemma Reload_applies c nc :
  is_Some (ReloadFn c) -> Equals c (Some nc) = false -> Check nc = Ok None ->
  Reload c (Some nc, None) = Ok (Apply c (Some nc), true, None).
Proof. intros [f Hf] HE HC. unfold Reload. by rewrite Hf, HE, HC. Qed.

Lemma Reload_equal c nc :
  is_Some (ReloadFn c) -> Equals c (Some nc) = true ->
  Reload c (Some nc, None) = Ok (c, false, None).
Proof. intros [f Hf] HE. unfold Reload. by rewrite Hf, HE. Qed.

(** X21.  A reloaded configuration without workers never takes effect
    on the workers and never settles: when the receiver has workers and
    [ReloadFn] returns a valid configuration with none, [Reload] returns
    true and keeps the workers of the receiver, and every further
    [Reload] with the same answer returns true again and changes
    nothing. *)
Theorem Reload_without_workers_never_settles c nc :
  is_Some (ReloadFn c) -> valid nc ->
  len (Workers nc) = 0%nat -> len (Workers c) ≠ 0%nat ->
  Reload c (Some nc, None) = Ok (Apply c (Some nc), true, None)
  ∧ Workers (Apply c (Some nc)) = Workers c
  ∧ Reload (Apply c (Some nc)) (Some nc, None) = Ok (Apply c (Some nc), true, None).
Proof.
  intros Hf Hv Hnc Hc.
  pose proof (Apply_valid_fields c nc Hv) as (H1 & H2 & H3 & H4).
  rewrite decide_False in H3 by lia.
  assert (∀ c0, Workers c0 = Workers c -> Equals c0 (Some nc) = false) as HE.
  { intros c0 Hw. unfold Equals. rewrite Hw.
    destruct (reflect_DeepEqual (Workers c) (Workers nc)) eqn:HD.
    - apply DeepEqual_len in HD. lia.
    - by rewrite andb_false_r. }
  pose proof (proj2 (Check_ok nc) Hv) as HC.
  assert (is_Some (ReloadFn (Apply c (Some nc)))) as Hf'.
  { rewrite H4. by destruct (ReloadFn nc). }
  split; [by apply Reload_applies; auto|]. split; [done|].
  rewrite Reload_applies by auto. do 3 f_equal.
  pose proof (Apply_valid_fields (Apply c (Some nc)) nc Hv) as (H1' & H2' & H3' & H4').
  rewrite decide_False in H3' by lia.
  apply Config_ext; [congruence..|].
  rewrite H4', H4. by destruct (ReloadFn nc).
Qed.

Lemma DeepEqual_copy (l : list (option WorkerConfig)) :
  (∀ w sk, Some w ∈ l -> Sink w = Some sk -> sink_DeepEqual (sink_Copy sk) sk = true) ->
  DeepEqual_list (fmap (M := list) (fmap (M := option) copy_worker) l) l = true.
Proof.
  induction l as [|[w|] l IH]; intros Hs; [done| |].
  - rewrite fmap_cons. cbn [DeepEqual_list fmap option_fmap option_map DeepEqual_worker].
    rewrite IH by (intros w' sk Hin; apply Hs; by right).
    rewrite andb_true_r. cbn [copy_worker Name Stream Sink].
    rewrite String.eqb_refl.
    assert (DeepEqual_stream (Stream w) (Stream w) = true) as ->.
    { destruct (Stream w); simpl; [|done]. by rewrite !String.eqb_refl. }
    destruct (Sink w) as [sk|] eqn:Hsk; simpl; [|done]. apply (Hs w); [left|done].
  - rewrite fmap_cons. cbn [DeepEqual_list fmap option_fmap option_map DeepEqual_worker].
    apply IH. intros w' sk Hin; apply Hs; by right.
Qed.

(** X22.  A reloaded configuration with workers settles: after [Apply]
    of a valid configuration that has workers, the receiver [Equals]
    it, and a [Reload] with the same answer returns false and no error
    and changes nothing.  Asked of the sinks: a deep copy is deeply
    equal to its original. *)
Theorem Reload_with_workers_settles c nc :
  is_Some (ReloadFn c) -> valid nc -> len (Workers nc) ≠ 0%nat ->
  (∀ w sk, Some w ∈ from_option id [] (Workers nc) -> Sink w = Some sk ->
           sink_DeepEqual (sink_Copy sk) sk = true) ->
  Equals (Apply c (Some nc)) (Some nc) = true
  ∧ Reload (Apply c (Some nc)) (Some nc, None) = Ok (Apply c (Some nc), false, None).
Proof.
  intros Hf Hv Hnc Hs.
  pose proof (Apply_valid_fields c nc Hv) as (H1 & H2 & H3 & H4).
  rewrite decide_True in H3 by done.
  assert (Equals (Apply c (Some nc)) (Some nc) = true) as HE.
  { unfold Equals. rewrite H1, H2, H3, !Z.eqb_refl. simpl.
    destruct (Workers nc) as [l|]; [|done]. simpl. by apply DeepEqual_copy. }
  split; [done|]. apply Reload_equal; [|done].
  rewrite H4. by destruct (ReloadFn nc).
Qed.

Lemma valid_worker_copy w :
  (∀ sk, Sink w = Some sk -> sink_Check (sink_Copy sk) = sink_Check sk) ->
  valid_worker w -> valid_worker (copy_worker w).
Proof.
  intros Hs (Hn & st & sk & Hst & Hsk & ? & ? & ? & Hc). split; [done|].
  exists st, (sink_Copy sk). simpl. rewrite Hsk. simpl.
  repeat split; try done. by rewrite (Hs sk).
Qed.

(** X23.  [Reload] keeps a valid configuration valid: if the receiver
    passes [Check] before a [Reload] that returns, it passes [Check]
    after it.  Asked of the sinks: the deep copy of a sink passes the
    check of the sink when the original does. *)
Theorem Reload_keeps_valid c answer c' b e :
  (∀ sk, sink_Check (sink_Copy sk) = sink_Check sk) ->
  Check c = Ok None ->
  Reload c answer = Ok (c', b, e) ->
  Check c' = Ok None.
Proof.
  intros Hs Hc [[-> ->]|(-> & -> & Hf & nc & -> & HE & HC & ->)]%Reload_cases; [done|].
  apply Check_ok in Hc, HC. apply Check_ok.
  pose proof (Apply_valid_fields c nc HC) as (H1 & H2 & H3 & H4).
  destruct Hc as (_ & _ & lc & Hlc & Hndc & Hvc).
  destruct HC as (Hp1 & Hp2 & ln & Hln & Hndn & Hvn).
  unfold valid. rewrite H1, H2, H3. split; [done|]. split; [done|].
  case_decide as Hlen; [|by exists lc].
  exists (copy_worker <$> ln).
  destruct (Workers nc) as [l|]; simpl in Hln, Hlen |- *; [|done].
  subst l. split; [|split].
  - rewrite <- !list_fmap_compose. by apply list_fmap_ext.
  - rewrite <- list_fmap_compose.
    by rewrite (list_fmap_ext (Name ∘ copy_worker) Name ln (λ _ _ _, eq_refl)).
  - apply Forall_fmap. eapply Forall_impl; [exact Hvn|].
    intros w Hw. apply valid_worker_copy; [|done]. intros; apply Hs.
Qed.

End ForwarderProperties.

(** * Concrete runs *)

Section Runs.
Import Sample.
#[local] Existing Instance SampleTags.
#[local] Existing Instance SampleJson.
#[local] Existing Instance SampleLql.

Local Open Scope list_scope.

Lemma index_wf_to_list `{TP : TagPkg} (m : gmap string tagsDesc) :
  Forall (λ p, entry_ok p.1 p.2) (map_to_list m) -> index_wf m.
Proof.
  intros H k td Hk. apply elem_of_map_to_list in Hk.
  by apply (proj1 (Forall_forall _ _) H (k, td)).
Qed.

(** The service after ["b=2,a=1"] was given the source ["j1"]. *)
Definition created : outcome (string * option error) :=
  GetOrCreateJournal "b=2,a=1" "j1" no_faults fresh ∅.

Definition created_ims : inmemService :=
  match created with Returns _ ims _ => ims | Blocks => fresh end.

Definition created_fs : gmap string string :=
  match created with Returns _ _ fs => fs | Blocks => ∅ end.

(** Two spellings of one tag set: the second call finds the entry the
    first one created, even with a disk that refuses writes. *)
Lemma GetOrCreateJournal_idempotent_witness :
  GetOrCreateJournal "a=1,b=2" "j2" write_fails created_ims created_fs
    = Returns ("j1", None) created_ims created_fs
  ∧ ∃ td, tmap created_ims !! "a=1,b=2" = Some td ∧ Src td = "j1"
      ∧ ∀ k td', tmap created_ims !! k = Some td' ->
                 Set_Line (tags td') = "a=1,b=2" -> k = "a=1,b=2" ∧ td' = td.
Proof.
  apply (@GetOrCreateJournal_idempotent SampleTags SampleJson "b=2,a=1" "a=1,b=2"
           (tags_of "b=2,a=1").1 (tags_of "a=1,b=2").1
           "j1" "j2" no_faults write_fails fresh ∅ "j1" created_ims created_fs).
  - exact index_wf_empty.
  - reflexivity.
  - reflexivity.
  - reflexivity.
  - reflexivity.
  - reflexivity.
Defined.

(** The service after a call whose write failed. *)
Definition fresh_failed : inmemService :=
  match GetOrCreateJournal "a=1" "j1" write_fails fresh ∅ with
  | Returns _ ims _ => ims
  | Blocks => fresh
  end.

(** A write that fails: the call fails and the index is empty again. *)
Lemma GetOrCreateJournal_error_keeps_index_witness :
  GetOrCreateJournal "a=1" "j1" write_fails fresh ∅
    = Returns ("", Some (ErrWrite "/var/lr/tindex.dat")) fresh_failed ∅
  ∧ "" = "" ∧ tmap fresh_failed = tmap fresh.
Proof.
  split; [reflexivity|].
  apply (GetOrCreateJournal_error_keeps_index "a=1" "j1" write_fails fresh ∅
           "" (ErrWrite "/var/lr/tindex.dat") fresh_failed ∅).
  reflexivity.
Defined.

(** The empty string on a new service: refused, nothing changed. *)
Lemma GetOrCreateJournal_empty_tags_witness :
  ∃ ims', GetOrCreateJournal "" "j1" no_faults fresh ∅
            = Returns ("", Some ErrEmptyTags) ims' ∅
          ∧ tmap ims' = tmap fresh ∧ logger ims' = logger fresh.
Proof.
  apply (@GetOrCreateJournal_empty_tags SampleTags SampleJson "" (tags_of "").1).
  - reflexivity.
  - reflexivity.
  - exact index_wf_empty.
  - reflexivity.
  - reflexivity.
Defined.

(** The same call leaves the mutex held, and the service is stuck. *)
Lemma empty_tags_path_holds_mutex_witness :
  ∃ ims', GetOrCreateJournal "" "j1" no_faults fresh ∅
            = Returns ("", Some ErrEmptyTags) ims' ∅
          ∧ lock ims' = true
          ∧ (∀ tagStr' newSrc' io', GetOrCreateJournal tagStr' newSrc' io' ims' ∅ = Blocks)
          ∧ Shutdown ims' ∅ = Blocks.
Proof.
  apply (@empty_tags_path_holds_mutex SampleTags SampleJson ""
           (tags_of "").1).
  - reflexivity.
  - reflexivity.
  - reflexivity.
  - reflexivity.
  - reflexivity.
Defined.

(** The service [fresh] after [Shutdown]. *)
Definition closed : inmemService :=
  match Shutdown fresh ∅ with Returns _ ims _ => ims | Blocks => fresh end.

Lemma closed_after_Shutdown_witness :
  GetOrCreateJournal "a=1" "j1" no_faults closed ∅
    = Returns ("", Some ErrShutDown) closed ∅
  ∧ GetJournals "a=1" 10 true [] closed ∅ = Returns (∅, 0, Some ErrShutDown) closed ∅
  ∧ GetJournals "nonsense" 10 true [] closed ∅
    = Returns (∅, 0, Some (ErrLib "unexpected expression")) closed ∅.
Proof.
  destruct (@closed_after_Shutdown SampleTags SampleJson SampleLql fresh ∅ tt closed ∅)
    as (H1 & H2 & H3); [reflexivity|].
  split; [apply H1|]. split; [apply H2|apply H3]; reflexivity.
Defined.

(** C7 as stated fails: after [Shutdown], [GetJournals] with a selector
    that does not compile returns the error of the compiler, which is
    not the shut-down error. *)
Lemma GetJournals_after_Shutdown_compile_error :
  Shutdown fresh ∅ = Returns tt closed ∅
  ∧ GetJournals "nonsense" 10 true [] closed ∅
    = Returns (∅, 0, Some (ErrLib "unexpected expression")) closed ∅
  ∧ ErrLib "unexpected expression" ≠ ErrShutDown.
Proof. split; [reflexivity|]. split; [reflexivity|discriminate]. Qed.

Lemma Shutdown_terminal_without_Init_witness :
  ∃ errs ims',
    run [CallShutdown; CallGetOrCreateJournal "a=1" "j1" no_faults;
         CallGetJournals "" 10 true []; CallShutdown;
         CallGetJournals "nonsense" 10 false []] fresh ∅
    = Returns (None :: errs) ims' ∅
    ∧ tmap ims' = tmap fresh ∧ done ims' = true ∧ lock ims' = false
    ∧ Forall2 (λ c err, is_Shutdown c = false -> is_Some err)
        [CallGetOrCreateJournal "a=1" "j1" no_faults;
         CallGetJournals "" 10 true []; CallShutdown;
         CallGetJournals "nonsense" 10 false []] errs.
Proof.
  apply (@Shutdown_terminal_without_Init SampleTags SampleJson SampleLql).
  - reflexivity.
  - repeat constructor.
Defined.

(** [Shutdown], then [Init], then a [GetOrCreateJournal]. *)
Definition reopened : outcome (list (option error)) :=
  run [CallShutdown; CallInit no_faults no_faults [] [];
       CallGetOrCreateJournal "a=1" "j1" no_faults] fresh ∅.

Definition reopened_ims : inmemService :=
  match reopened with Returns _ ims _ => ims | Blocks => fresh end.

Definition reopened_fs : gmap string string :=
  match reopened with Returns _ _ fs => fs | Blocks => ∅ end.

(** C8 as stated fails: [Init] after [Shutdown] opens the service
    again, and the next [GetOrCreateJournal] succeeds and adds an entry
    to the index. *)
Lemma Init_after_Shutdown_reopens :
  run [CallShutdown; CallInit no_faults no_faults [] [];
       CallGetOrCreateJournal "a=1" "j1" no_faults] fresh ∅
  = Returns [None; None; None] reopened_ims reopened_fs
  ∧ done reopened_ims = false
  ∧ tmap fresh !! "a=1" = None
  ∧ tmap reopened_ims !! "a=1" = Some (desc "a=1" "j1").
Proof.
  split; [reflexivity|].
  split; [reflexivity|].
  split; reflexivity.
Qed.

(** Five matches and room for two: the full scan counts five, the
    capped one stops at the third match. *)
Lemma GetJournals_scan_witness :
  (∃ res, GetJournals "a=1" 2 true (keys six) six ∅ = Returns (res, 5, None) six ∅
          ∧ Z.of_nat (size res) ≤ 2)
  ∧ (∃ res count, GetJournals "a=1" 2 false (keys six) six ∅
                  = Returns (res, count, None) six ∅
          ∧ Z.of_nat (size res) ≤ 2 ∧ count ≤ 5)
  ∧ GetJournals "a=1" 2 false (keys six) six ∅
    = GetJournals "a=1" 2 false (["a=1,c=1"; "a=1,b=1"] ++ ["a=1,b=2"]) six ∅.
Proof.
  destruct (@GetJournals_scan SampleTags SampleLql "a=1" (compile "a=1").1 2 (keys six) six ∅)
    as (H1 & H2 & H3).
  - reflexivity.
  - reflexivity.
  - reflexivity.
  - apply iteration_of_eq. reflexivity.
  - split; [exact H1|]. split; [exact H2|].
    apply (H3 ["a=1,c=1"; "a=1,b=1"] "a=1,b=2" (desc "a=1,b=2" "j3") ["a=1,d=1"; "a=1"; "z=9"]).
    + reflexivity.
    + reflexivity.
    + reflexivity.
    + vm_compute. discriminate.
Defined.

Example GetJournals_six_all :
  GetJournals "a=1" 2 true (keys six) six ∅
  = Returns ({[ "a=1,c=1" := "j4"; "a=1,b=1" := "j2" ]}, 5, None) six ∅.
Proof. reflexivity. Qed.

Example GetJournals_six_capped :
  GetJournals "a=1" 2 false (keys six) six ∅
  = Returns ({[ "a=1,c=1" := "j4"; "a=1,b=1" := "j2" ]}, 3, None) six ∅.
Proof. reflexivity. Qed.

(** No file: an empty index.  A file with the key ["abc"]: an error. *)
Lemma loadState_missing_or_unparseable_witness :
  (∃ ims', loadState no_faults [] fresh ∅ = (None, ims') ∧ tmap ims' = ∅)
  ∧ (∃ e ims', loadState no_faults ["abc"] fresh bad_dat = (Some e, ims')).
Proof.
  split.
  - apply (proj1 (@loadState_missing_or_unparseable SampleTags SampleJson
                    no_faults [] cfg ∅)).
    reflexivity.
  - apply (proj2 (@loadState_missing_or_unparseable SampleTags SampleJson
                    no_faults ["abc"] cfg bad_dat) fresh
             (from_option id "" (bad_dat !! "/var/lr/tindex.dat"))
             {[ "abc" := "j1" ]} "abc").
    + reflexivity.
    + reflexivity.
    + reflexivity.
    + apply iteration_of_eq. reflexivity.
    + by eexists.
    + by eexists.
Defined.

(** The index [two], saved and loaded by a new service. *)
Lemma save_load_roundtrip_witness :
  ∃ ims1 fs1 ims2,
    saveStateUnsafe no_faults two ∅ = (None, ims1, fs1)
    ∧ loadState no_faults (keys two) fresh fs1 = (None, ims2)
    ∧ tmap ims2 = tmap two.
Proof.
  apply (@save_load_roundtrip SampleTags SampleJson two ∅
           (from_option id "" (encode (document (tmap two))))).
  - reflexivity.
  - apply index_wf_to_list.
    change (Forall (λ p : string * tagsDesc, entry_ok p.1 p.2)
              [("a=1", desc "a=1" "jA"); ("b=1", desc "b=1" "jB")]).
    repeat constructor.
  - reflexivity.
  - reflexivity.
  - reflexivity.
  - apply empty_subseteq.
  - apply iteration_of_eq. reflexivity.
Defined.

(** The index of [two_dat] refers to [jA] and [jB].  A controller with
    [jA] and [jC] fails [Init]; a controller with [jA] alone passes, and
    [jB] is warned about and kept. *)
Definition two_loaded : inmemService :=
  (loadState no_faults ["a=1"; "b=1"]
     (set_done false (log Info "Initializing..." fresh)) two_dat).2.


(** ** Runs for the further properties *)

(** The encoding of the index of [two], which is what [two_dat] holds. *)
Definition two_enc : string := from_option id "" (encode (document (tmap two))).

(** [two] after a call for the new tag ["c=1"], from the disk [two_dat]. *)
Definition grown : outcome (string * option error) :=
  GetOrCreateJournal "c=1" "jC" no_faults two two_dat.

Definition grown_ims : inmemService :=
  match grown with Returns _ ims _ => ims | Blocks => two end.

Definition grown_fs : gmap string string :=
  match grown with Returns _ _ fs => fs | Blocks => ∅ end.

(** The index [two] with the entry for ["c=1"]. *)
Definition two_c : gmap string tagsDesc := <[ "c=1" := desc "c=1" "jC" ]> (tmap two).

Definition two_c_enc : string := from_option id "" (encode (document two_c)).

Lemma keys_are_lines_to_list (m : gmap string tagsDesc) :
  Forall (λ p, Set_Line (tags p.2) = p.1) (map_to_list m) ->
  ∀ k td, m !! k = Some td -> Set_Line (tags td) = k.
Proof.
  intros H k td Hk. apply elem_of_map_to_list in Hk.
  by apply (proj1 (Forall_forall _ _) H (k, td)).
Qed.

Lemma six_keys_are_lines : ∀ k td, tmap six !! k = Some td -> Set_Line (tags td) = k.
Proof.
  apply keys_are_lines_to_list.
  change (Forall (λ p : string * tagsDesc, Set_Line (tags p.2) = p.1)
            [("a=1,c=1", desc "a=1,c=1" "j4"); ("a=1,b=1", desc "a=1,b=1" "j2");
             ("a=1,b=2", desc "a=1,b=2" "j3"); ("a=1,d=1", desc "a=1,d=1" "j5");
             ("a=1", desc "a=1" "j1"); ("z=9", desc "z=9" "j6")]).
  repeat constructor.
Qed.

Lemma saveStateUnsafe_rotates_backup_witness :
  ∃ ims' fs', saveStateUnsafe no_faults two two_dat = (None, ims', fs')
    ∧ fs' !! idx_file two = Some two_enc
    ∧ fs' !! bak_file two = Some two_enc
    ∧ ∀ p, p ≠ idx_file two -> p ≠ bak_file two -> fs' !! p = two_dat !! p.
Proof.
  apply (@saveStateUnsafe_rotates_backup SampleTags SampleJson two two_dat two_enc two_enc);
    reflexivity.
Defined.

Lemma saveStateUnsafe_write_failure_witness :
  ∃ ims' fs', saveStateUnsafe write_fails two two_dat
              = (Some (ErrWrite (idx_file two)), ims', fs')
    ∧ fs' !! idx_file two = None
    ∧ fs' !! bak_file two = Some two_enc
    ∧ tmap ims' = tmap two.
Proof.
  apply (@saveStateUnsafe_write_failure SampleTags SampleJson two two_dat write_fails
           two_enc two_enc None); reflexivity.
Defined.

Lemma GetOrCreateJournal_creates_witness :
  ∃ ims' fs', GetOrCreateJournal "c=1" "jC" no_faults two two_dat
              = Returns ("jC", None) ims' fs'
    ∧ tmap ims' = two_c
    ∧ lock ims' = false
    ∧ fs' !! idx_file two = Some two_c_enc.
Proof.
  apply (@GetOrCreateJournal_creates SampleTags SampleJson "c=1" (tags_of "c=1").1 "jC"
           two two_dat two_c_enc); reflexivity.
Defined.

Lemma GetOrCreateJournal_keeps_entries_witness :
  tmap grown_ims !! "a=1" = Some (desc "a=1" "jA").
Proof.
  apply (@GetOrCreateJournal_keeps_entries SampleTags SampleJson "c=1" "jC" no_faults
           two two_dat ("jC", None) grown_ims grown_fs); reflexivity.
Defined.

Lemma GetOrCreateJournal_sources_unique_witness : sources_unique (tmap created_ims).
Proof.
  apply (@GetOrCreateJournal_sources_unique SampleTags SampleJson "b=2,a=1" "j1" no_faults
           fresh ∅ ("j1", None) created_ims created_fs).
  - intros k1 k2 td1 td2 H1. exfalso. revert H1. apply lookup_empty_Some.
  - refine (bool_decide_unpack _ _). vm_compute. exact I.
  - reflexivity.
Defined.

Lemma run_touches_index_files_only_witness :
  (∀ p, p ≠ idx_file fresh -> p ≠ bak_file fresh ->
        reopened_fs !! p = (∅ : gmap string string) !! p)
  ∧ (DoNotSave (Config fresh) = true -> reopened_fs = ∅).
Proof.
  apply (@run_touches_index_files_only SampleTags SampleJson SampleLql
           [CallShutdown; CallInit no_faults no_faults [] [];
            CallGetOrCreateJournal "a=1" "j1" no_faults]
           fresh ∅ [None; None; None] reopened_ims reopened_fs).
  reflexivity.
Defined.

(** [created] and two more calls, as a sequence. *)
Definition served_calls : list call :=
  [CallGetOrCreateJournal "b=2,a=1" "j1" no_faults;
   CallGetJournals "a=1" 10 true ["a=1,b=2"]; CallShutdown].

Definition served : outcome (list (option error)) := run served_calls fresh ∅.

Definition served_ims : inmemService :=
  match served with Returns _ ims _ => ims | Blocks => fresh end.

Definition served_fs : gmap string string :=
  match served with Returns _ _ fs => fs | Blocks => ∅ end.

Lemma run_index_wf_witness : index_wf (tmap served_ims).
Proof.
  apply (@run_index_wf SampleTags SampleJson SampleLql served_calls
           fresh ∅ [None; None; None] served_ims served_fs).
  - repeat constructor.
  - constructor; [|repeat constructor].
    intros tgs H. apply (f_equal fst) in H. simpl in H. subst tgs. reflexivity.
  - exact index_wf_empty.
  - reflexivity.
Defined.

Lemma GetJournals_sound_witness :
  six = six ∧ (∅ : gmap string string) = ∅ ∧ 0 ≤ 3
  ∧ ∀ line src,
      ({[ "a=1,c=1" := "j4"; "a=1,b=1" := "j2" ]} : gmap string string) !! line = Some src ->
      ∃ k td, tmap six !! k = Some td ∧ (BuildTagsExpFuncBySource "a=1").1 (tags td) = true
              ∧ Set_Line (tags td) = line ∧ Src td = src.
Proof.
  apply (@GetJournals_sound SampleTags SampleLql "a=1" 2 false (keys six) six ∅
           {[ "a=1,c=1" := "j4"; "a=1,b=1" := "j2" ]} 3 six ∅).
  reflexivity.
Defined.

Lemma GetJournals_sizes_witness :
  ∃ res count,
    GetJournals "a=1" 2 false (keys six) six ∅ = Returns (res, count, None) six ∅
    ∧ Z.of_nat (size res)
      = Z.min (Z.of_nat (size (matching (compile "a=1").1 (tmap six)))) (Z.max 0 2)
    ∧ count = Z.min (Z.of_nat (size (matching (compile "a=1").1 (tmap six)))) (Z.max 0 2 + 1).
Proof.
  apply (@GetJournals_sizes SampleTags SampleLql "a=1" (compile "a=1").1 2 false
           (keys six) six ∅).
  - reflexivity.
  - reflexivity.
  - reflexivity.
  - apply iteration_of_eq. reflexivity.
  - exact six_keys_are_lines.
Defined.

Lemma GetJournals_complete_witness :
  GetJournals "a=1" 10 false (keys six) six ∅
  = Returns (document (matching (compile "a=1").1 (tmap six)),
             Z.of_nat (size (matching (compile "a=1").1 (tmap six))), None) six ∅.
Proof.
  apply (@GetJournals_complete SampleTags SampleLql "a=1" (compile "a=1").1 10 false
           (keys six) six ∅).
  - reflexivity.
  - reflexivity.
  - reflexivity.
  - apply iteration_of_eq. reflexivity.
  - exact six_keys_are_lines.
  - refine (bool_decide_unpack _ _). vm_compute. exact I.
Defined.

(** A new service that loads [two_dat]. *)
Definition loaded_two : inmemService :=
  (loadState no_faults ["a=1"; "b=1"] fresh two_dat).2.

Lemma loadState_loaded_witness :
  tmap loaded_two !! "a=1"
  = (λ src, {| tags := (tag_Parse "a=1").1; Src := src |})
      <$> ((decode two_enc).1 !! "a=1" ∪ (Src <$> tmap fresh !! "a=1"))
  ∧ (is_Some (tmap loaded_two !! "a=1") -> (tag_Parse "a=1").2 = None).
Proof.
  apply (@loadState_loaded SampleTags SampleJson no_faults ["a=1"; "b=1"] fresh two_dat
           two_enc (decode two_enc).1 loaded_two).
  - reflexivity.
  - reflexivity.
  - reflexivity.
  - apply iteration_of_eq. reflexivity.
  - reflexivity.
Defined.

Lemma GetOrCreateJournal_keeps_mirror_witness : mirrored grown_ims grown_fs.
Proof.
  apply (@GetOrCreateJournal_keeps_mirror SampleTags SampleJson "c=1" "jC" no_faults
           two two_dat "jC" grown_ims grown_fs).
  - reflexivity.
  - exists two_enc. split; reflexivity.
  - reflexivity.
Defined.

Lemma created_entry_survives_restart_witness :
  ∃ ims' fs' ims2,
    GetOrCreateJournal "c=1" "jC" no_faults two two_dat = Returns ("jC", None) ims' fs'
    ∧ loadState no_faults (map_to_list two_c).*1
        (NewInmemServiceWithConfig (Config two)) fs' = (None, ims2)
    ∧ tmap ims2 = tmap ims'.
Proof.
  apply (@created_entry_survives_restart SampleTags SampleJson "c=1" (tags_of "c=1").1 "jC"
           two two_dat two_c_enc (map_to_list two_c).*1).
  - reflexivity.
  - reflexivity.
  - reflexivity.
  - reflexivity.
  - reflexivity.
  - reflexivity.
  - reflexivity.
  - apply (@index_wf_to_list SampleTags (tmap two)).
    change (Forall (λ p : string * tagsDesc, entry_ok p.1 p.2)
              [("a=1", desc "a=1" "jA"); ("b=1", desc "b=1" "jB")]).
    repeat constructor.
  - reflexivity.
  - reflexivity.
  - reflexivity.
  - apply iteration_of_eq. reflexivity.
Defined.

Lemma failed_write_loses_primary_witness :
  ∃ ims' fs',
    GetOrCreateJournal "c=1" "jC" write_fails two two_dat
    = Returns ("", Some (ErrWrite (idx_file two))) ims' fs'
    ∧ tmap ims' = tmap two
    ∧ fs' !! idx_file two = None
    ∧ fs' !! bak_file two = Some two_enc
    ∧ ∀ order, ∃ ims2,
        loadState no_faults order (NewInmemServiceWithConfig (Config two)) fs' = (None, ims2)
        ∧ tmap ims2 = ∅.
Proof.
  apply (@failed_write_loses_primary SampleTags SampleJson "c=1" (tags_of "c=1").1 "jC"
           write_fails two two_dat two_enc two_c_enc); reflexivity.
Defined.

(** A controller that lists [jA] twice. *)
Lemma Init_inconsistent_iff_witness :
  (Init no_faults no_faults ["a=1"; "b=1"] ["jA"; "jA"] fresh two_dat).1.1
  = Some (ErrInconsistent 2 (size (tmap two_loaded))).
Proof.
  apply (proj2 (@Init_inconsistent_iff SampleTags SampleJson no_faults no_faults
                  ["a=1"; "b=1"] ["jA"; "jA"] fresh two_dat two_loaded eq_refl)).
  left. intros [Hnin _]%NoDup_cons. apply Hnin. left.
Defined.

Lemma triple_eta {A B C} (t : A * B * C) (a : A) :
  t.1.1 = a -> t = (a, t.1.2, t.2).
Proof. destruct t as [[? ?] ?]. simpl. by intros ->. Qed.

(** [Init] of a new service on [two_dat] with a controller that has
    [jA]. *)
Definition started : option error * inmemService * gmap string string :=
  Init no_faults no_faults ["a=1"; "b=1"] ["jA"] fresh two_dat.

Lemma Init_success_witness :
  NoDup ["jA"]
  ∧ (∀ src, src ∈ ["jA"] -> src ∈ indexed (tmap started.1.2))
  ∧ done started.1.2 = false
  ∧ (DoNotSave (Config fresh) = false -> mirrored started.1.2 started.2).
Proof.
  apply (@Init_success SampleTags SampleJson no_faults no_faults ["a=1"; "b=1"] ["jA"]
           fresh two_dat started.1.2 started.2).
  apply (triple_eta started None). reflexivity.
Defined.

Lemma Init_first_run_witness :
  (["jA"] ≠ [] ->
   ∃ ims', Init no_faults no_faults [] ["jA"] fresh ∅
           = (Some (ErrInconsistent (length ["jA"]) 0), ims', ∅))
  ∧ (["jA"] = [] ->
     ∃ ims2, Init no_faults no_faults [] ["jA"] fresh ∅ = saveStateUnsafe no_faults ims2 ∅
             ∧ tmap ims2 = ∅ ∧ Config ims2 = Config fresh).
Proof.
  apply (@Init_first_run SampleTags SampleJson no_faults no_faults [] ["jA"] fresh ∅);
    reflexivity.
Defined.

(** An [Init] that fails: [jC] is not indexed. *)
Definition refused : option error * inmemService * gmap string string :=
  Init no_faults no_faults ["a=1"; "b=1"] ["jA"; "jC"] fresh two_dat.

Lemma Init_leaves_service_open_witness :
  refused.1.1 = Some (ErrInconsistent 2 2)
  ∧ done refused.1.2 = false ∧ lock refused.1.2 = lock fresh
  ∧ ∀ tagStr newSrc io r ims2 fs2,
      GetOrCreateJournal tagStr newSrc io refused.1.2 refused.2 = Returns r ims2 fs2 ->
      r.2 ≠ Some ErrShutDown.
Proof.
  split; [reflexivity|].
  apply (@Init_leaves_service_open SampleTags SampleJson no_faults no_faults
           ["a=1"; "b=1"] ["jA"; "jC"] fresh two_dat refused.1.1 refused.1.2 refused.2).
  apply (triple_eta refused refused.1.1). reflexivity.
Defined.

End Runs.

(** * Concrete runs of the configuration of the forwarder *)

Section ForwarderRuns.
Import Forwarder.

Local Open Scope list_scope.

(** Modelled from the spec: a sink is its name and passes its check
    unless the name is empty; the parsers refuse one string each; blanks
    are trimmed on the left (enough to tell a blank name). *)
Definition SampleSink : SinkPkg :=
  {| sink_Config := string;
     sink_Check := λ s, if String.eqb s "" then Some "no sink type" else None;
     sink_Copy := λ s, s;
     sink_DeepEqual := String.eqb |}.

Fixpoint trim_left (s : string) : string :=
  match s with
  | String " " rest => trim_left rest
  | _ => s
  end.

Definition SampleCheck : CheckPkg :=
  {| lql_ParseSource := λ s, if String.eqb s "{" then Some "unexpected {" else None;
     lql_ParseExpr := λ s, if String.eqb s "(" then Some "unexpected (" else None;
     syntax_Parse := λ s, if String.eqb s "[" then Some "missing closing ]" else None;
     strings_TrimSpace := trim_left;
     reloadFn := unit |}.

#[local] Existing Instance SampleSink.
#[local] Existing Instance SampleCheck.

Definition console : WorkerConfig :=
  @Build_WorkerConfig SampleSink "console"
    (Some {| Source := "app=web"; Filter := "" |}) (Some "stdout").

Definition syslog : WorkerConfig :=
  @Build_WorkerConfig SampleSink "syslog"
    (Some {| Source := "app=db"; Filter := "error" |}) (Some "syslog").

(** The running configuration, and two that [ReloadFn] may return. *)
Definition running : Config :=
  @Build_Config SampleSink SampleCheck (Some [Some console]) 10 20 (Some tt).

Definition no_workers : Config :=
  @Build_Config SampleSink SampleCheck (Some []) 5 20 None.

Definition two_workers : Config :=
  @Build_Config SampleSink SampleCheck (Some [Some console; Some syslog]) 5 20 None.

Lemma console_valid : valid_worker console.
Proof.
  split; [discriminate|]. eexists _, _. repeat split; reflexivity.
Qed.

Lemma syslog_valid : valid_worker syslog.
Proof. split; [discriminate|]. eexists _, _. repeat split; reflexivity. Qed.

Lemma no_workers_valid : valid no_workers.
Proof.
  split; [reflexivity|]. split; [reflexivity|]. exists [].
  split; [reflexivity|]. split; constructor.
Qed.

Lemma two_workers_valid : valid two_workers.
Proof.
  split; [reflexivity|]. split; [reflexivity|]. exists [console; syslog].
  split; [reflexivity|]. split.
  - apply NoDup_cons. split; [|apply NoDup_singleton].
    intros H%list_elem_of_singleton. discriminate.
  - apply Forall_cons. split; [apply console_valid|].
    apply Forall_cons. split; [apply syslog_valid|constructor].
Qed.

Lemma Check_accepts_iff_witness : Check two_workers = Ok None.
Proof. apply (proj2 (Check_accepts_iff two_workers)). exact two_workers_valid. Defined.

Lemma Reload_changes_only_when_true_witness :
  (true = false -> Apply running (Some two_workers) = running)
  ∧ (true = true ->
     (None : option configError) = None ∧ is_Some (ReloadFn running)
     ∧ ∃ nc, (Some two_workers, (None : option string)) = (Some nc, None)
             ∧ Equals running (Some nc) = false
             ∧ valid nc ∧ Apply running (Some two_workers) = Apply running (Some nc)).
Proof.
  apply (Reload_changes_only_when_true running (Some two_workers, None)
           (Apply running (Some two_workers)) true None).
  reflexivity.
Defined.

Lemma Reload_without_workers_never_settles_witness :
  Reload running (Some no_workers, None)
  = Ok (Apply running (Some no_workers), true, None)
  ∧ Workers (Apply running (Some no_workers)) = Workers running
  ∧ Reload (Apply running (Some no_workers)) (Some no_workers, None)
    = Ok (Apply running (Some no_workers), true, None).
Proof.
  apply (Reload_without_workers_never_settles running no_workers).
  - by eexists.
  - exact no_workers_valid.
  - reflexivity.
  - discriminate.
Defined.

Lemma Reload_with_workers_settles_witness :
  Equals (Apply running (Some two_workers)) (Some two_workers) = true
  ∧ Reload (Apply running (Some two_workers)) (Some two_workers, None)
    = Ok (Apply running (Some two_workers), false, None).
Proof.
  apply (Reload_with_workers_settles running two_workers).
  - by eexists.
  - exact two_workers_valid.
  - discriminate.
  - intros w sk _ _. apply String.eqb_refl.
Defined.

Lemma Reload_keeps_valid_witness : Check (Apply running (Some two_workers)) = Ok None.
Proof.
  apply (Reload_keeps_valid running (Some two_workers, None)
           (Apply running (Some two_workers)) true None).
  - intros sk. reflexivity.
  - reflexivity.
  - reflexivity.
Defined.

End ForwarderRuns.
